(** * Timeline synchronisation and deterministic rendering

    A shallow embedding of the scene-timeline engine of the story-sync
    video generator:

    - the [App] component: project creation, visual generation, the
      start-time edits, auto-align and live sync;
    - [components/Player.tsx]: the interactive player's active scene;
    - [services/videoRecorder.ts]: the offline renderer's [drawFrame].

    Number model.  The JavaScript numbers that hold times (scene start
    times, the audio duration, the playback position) are finite doubles;
    they are modelled by rationals [Q], with exact sums, products and
    quotients where rounding decides no outcome.  It does decide which
    scene is active at a time computed beside the start times that
    auto-align writes: there the arithmetic is a parameter, and [Double]
    gives the rounding to the nearest double.  The one place where the
    code can leave the finite numbers is the division by the scene's
    length in [drawFrame]; its result is a [JS.num], which adds the IEEE
    special values to [Q], with the JavaScript semantics of [/],
    [Math.min], [Math.max], [+], [-] and [*] on them. *)

From Stdlib Require Import QArith Qpower Qminmax Lqa Ascii String.
From stdpp Require Import base option list strings pretty gmap.

Close Scope Q_scope.

(** ** JavaScript numbers *)

Module JS.

Inductive num : Type :=
| Fin (q : Q)
| PosInf
| NegInf
| NaN.

(** [a > b] on finite numbers. *)
Definition gt (a b : Q) : bool := negb (Qle_bool a b).

(** [a >= b] on finite numbers. *)
Definition ge (a b : Q) : bool := Qle_bool b a.

(** [a / b] for finite [a] and [b]; a zero divisor arises here only as
    the difference of two equal numbers, which is [+0]. *)
Definition div (a b : Q) : num :=
  if Qeq_bool b 0 then
    if gt a 0 then PosInf
    else if gt 0 a then NegInf
    else NaN
  else Fin (a / b).

(** [Math.min(a, b)]. *)
Definition Math_min (a b : num) : num :=
  match a, b with
  | NaN, _ | _, NaN => NaN
  | NegInf, _ | _, NegInf => NegInf
  | PosInf, y => y
  | x, PosInf => x
  | Fin x, Fin y => if Qle_bool x y then Fin x else Fin y
  end.

(** [Math.max(a, b)]. *)
Definition Math_max (a b : num) : num :=
  match a, b with
  | NaN, _ | _, NaN => NaN
  | PosInf, _ | _, PosInf => PosInf
  | NegInf, y => y
  | x, NegInf => x
  | Fin x, Fin y => if Qle_bool x y then Fin y else Fin x
  end.

Definition neg (a : num) : num :=
  match a with
  | Fin x => Fin (- x)
  | PosInf => NegInf
  | NegInf => PosInf
  | NaN => NaN
  end.

(** [a + b]. *)
Definition add (a b : num) : num :=
  match a, b with
  | NaN, _ | _, NaN => NaN
  | PosInf, NegInf | NegInf, PosInf => NaN
  | PosInf, _ | _, PosInf => PosInf
  | NegInf, _ | _, NegInf => NegInf
  | Fin x, Fin y => Fin (x + y)
  end.

(** [a - b]. *)
Definition sub (a b : num) : num := add a (neg b).

(** The infinity with the sign of [x], and [NaN] for [x = 0]. *)
Definition signed_inf (x : Q) : num :=
  if gt x 0 then PosInf else if gt 0 x then NegInf else NaN.

(** [a * b]. *)
Definition mul (a b : num) : num :=
  match a, b with
  | NaN, _ | _, NaN => NaN
  | Fin x, Fin y => Fin (x * y)
  | Fin x, PosInf | PosInf, Fin x => signed_inf x
  | Fin x, NegInf | NegInf, Fin x => signed_inf (- x)
  | PosInf, PosInf | NegInf, NegInf => PosInf
  | PosInf, NegInf | NegInf, PosInf => NegInf
  end.

(** The same number: rationals are compared by value. *)
Definition same (a b : num) : Prop :=
  match a, b with
  | Fin x, Fin y => (x == y)%Q
  | PosInf, PosInf | NegInf, NegInf | NaN, NaN => True
  | _, _ => False
  end.

(** [arr.reduce((acc, x, idx) => f(acc, x, idx), init)]. *)
Fixpoint reduce_from {A B : Type} (f : B → A → nat → B)
    (idx : nat) (acc : B) (arr : list A) : B :=
  match arr with
  | [] => acc
  | x :: rest => reduce_from f (S idx) (f acc x idx) rest
  end.

Definition reduce {A B : Type} (f : B → A → nat → B)
    (arr : list A) (init : B) : B :=
  reduce_from f 0 init arr.

(** [arr.findIndex(p)]; [None] stands for the result [-1]. *)
Definition findIndex {A : Type} (p : A → bool) (arr : list A) : option nat :=
  fst <$> list_find (λ x, p x = true) arr.

End JS.

(** ** Data model

    The types [Scene] and [ProjectData], with the fields the handlers and
    the renderer read and write. *)

(** The status strings ['pending'], ['generating_image'], ['ready'] and
    ['error']. *)
Inductive SceneStatus : Type :=
| Pending
| GeneratingImage
| Ready
| Error.

Record Scene : Type := mkScene {
  id : nat;
  prompt : string;
  script : string;
  status : SceneStatus;
  startTime : Q;
  imageUrl : option string
}.

(** The decoded [audioBuffer] is kept only through its [duration]. *)
Record ProjectData : Type := mkProject {
  scenes : list Scene;
  duration : Q
}.

(** [{ ...s, startTime: t }] *)
Definition with_startTime (t : Q) (s : Scene) : Scene :=
  {| id := id s; prompt := prompt s; script := script s; status := status s;
     startTime := t; imageUrl := imageUrl s |}.

(** [s.status = st] *)
Definition with_status (st : SceneStatus) (s : Scene) : Scene :=
  {| id := id s; prompt := prompt s; script := script s; status := st;
     startTime := startTime s; imageUrl := imageUrl s |}.

(** [s.imageUrl = url] *)
Definition with_imageUrl (url : string) (s : Scene) : Scene :=
  {| id := id s; prompt := prompt s; script := script s; status := status s;
     startTime := startTime s; imageUrl := Some url |}.

(** [{ ...project, scenes: newScenes }] *)
Definition with_scenes (newScenes : list Scene) (project : ProjectData)
    : ProjectData :=
  {| scenes := newScenes; duration := duration project |}.

(** ** The resolver rule of the specification *)

(** Scene [i] qualifies at [time] when it exists and has started. *)
Definition qualifies (scs : list Scene) (time : Q) (i : nat) : Prop :=
  ∃ s, scs !! i = Some s ∧ (startTime s <= time)%Q.

(** [r] is the greatest qualifying index, or 0 when no scene qualifies. *)
Definition last_qualifying (scs : list Scene) (time : Q) (r : nat) : Prop :=
  (qualifies scs time r ∧ ∀ j, qualifies scs time j → j ≤ r)
  ∨ ((∀ j, ¬ qualifies scs time j) ∧ r = 0).

(** [clamp(x, lo, hi)] *)
Definition clamp (x lo hi : Q) : Q := Qmax lo (Qmin hi x).

(** The start times of a scene list, in array order. *)
Definition startTimes (scs : list Scene) : list Q := startTime <$> scs.

(** A scene with the given start time, for examples. *)
Definition scene_at (i : nat) (t : Q) : Scene :=
  {| id := S i; prompt := ""; script := ""; status := Pending;
     startTime := t; imageUrl := None |}.

Definition scenes_at (ts : list Q) : list Scene := imap scene_at ts.

(** ** The active scene *)

(** [components/Player.tsx], lines 36-38. *)
Module Player.

Definition activeSceneIndex (scenes : list Scene) (currentTime : Q) : nat :=
  JS.reduce
    (λ bestIndex scene idx,
       if Qle_bool (startTime scene) currentTime then idx else bestIndex)
    scenes 0.

End Player.

(** [services/videoRecorder.ts], lines 142-144, inside [drawFrame]. *)
Module VideoRecorder.

Definition activeSceneIndex (project : ProjectData) (currentTime : Q) : nat :=
  JS.reduce
    (λ bestIndex scene idx,
       if Qle_bool (startTime scene) currentTime then idx else bestIndex)
    (scenes project) 0.

(** What one call of [drawFrame] decides. *)
Record Frame : Type := mkFrame {
  frameIndex : nat;               (* activeSceneIndex *)
  frameProgress : JS.num;         (* sceneProgress *)
  frameScale : option JS.num;     (* scale, when the image is drawn *)
  frameSubtitle : option string   (* scene.script, when it is drawn *)
}.

Inductive FrameResult : Type :=
| Stopped                (* currentTime >= duration: the recorder stops *)
| Threw                  (* a TypeError on an undefined scene *)
| Drawn (f : Frame).

(** Lines 148-150; [None] when [scenes[activeSceneIndex + 1]] is read
    and undefined. *)
Definition nextStartTime (project : ProjectData) (activeSceneIndex : nat)
    : option Q :=
  if (Z.of_nat activeSceneIndex <? Z.of_nat (length (scenes project)) - 1)%Z
  then startTime <$> scenes project !! (activeSceneIndex + 1)
  else Some (duration project).

(** Lines 152-153. *)
Definition sceneProgress (currentTime : Q) (scene : Scene) (nextStart : Q)
    : JS.num :=
  let sceneDuration := (nextStart - startTime scene)%Q in
  JS.Math_max (JS.Fin 0)
    (JS.Math_min (JS.Fin 1)
       (JS.div (currentTime - startTime scene)%Q sceneDuration)).

(** Lines 161-170. *)
Definition scale (activeSceneIndex : nat) (sceneProgress : JS.num) : JS.num :=
  let isEven := activeSceneIndex mod 2 =? 0 in
  if isEven then JS.add (JS.Fin 1) (JS.mul (JS.Fin 0.25) sceneProgress)
  else JS.sub (JS.Fin 1.25) (JS.mul (JS.Fin 0.25) sceneProgress).

(** Lines 127-228, without the canvas calls and the progress callback.
    [imageAssets] maps the [id] of each scene whose image has loaded to
    that image. *)
Definition drawFrame (project : ProjectData) (imageAssets : gmap nat string)
    (currentTime : Q) : FrameResult :=
  if JS.ge currentTime (duration project) then Stopped
  else
    let activeSceneIndex := activeSceneIndex project currentTime in
    match scenes project !! activeSceneIndex with
    | None => Threw
    | Some scene =>
        match nextStartTime project activeSceneIndex with
        | None => Threw
        | Some nextStart =>
            let progress := sceneProgress currentTime scene nextStart in
            Drawn
              {| frameIndex := activeSceneIndex;
                 frameProgress := progress;
                 frameScale :=
                   match imageAssets !! id scene with
                   | Some img => Some (scale activeSceneIndex progress)
                   | None => None
                   end;
                 frameSubtitle :=
                   if bool_decide (script scene = "") then None
                   else Some (script scene) |}
        end
    end.

End VideoRecorder.

(** ** The handlers of the [App] component *)

Module App.

(** *** Strings: [split('\n')] and [trim()]

    Characters are 8-bit codes; the white space of [trim] in that range
    is TAB, LF, VT, FF, CR, SP and NBSP. *)

Definition newline : ascii := ascii_of_nat 10.

Definition is_white_space (c : ascii) : bool :=
  let n := nat_of_ascii c in
  (9 <=? n) && (n <=? 13) || (n =? 32) || (n =? 160).

(** [s.split(sep)] for a one-character separator. *)
Fixpoint split (sep : ascii) (s : string) : list string :=
  match s with
  | EmptyString => [EmptyString]
  | String c rest =>
      if Ascii.eqb c sep then EmptyString :: split sep rest
      else match split sep rest with
           | [] => [String c EmptyString]
           | w :: ws => String c w :: ws
           end
  end.

Fixpoint trimStart (s : string) : string :=
  match s with
  | EmptyString => EmptyString
  | String c rest => if is_white_space c then trimStart rest else s
  end.

Fixpoint trimEnd (s : string) : string :=
  match s with
  | EmptyString => EmptyString
  | String c rest =>
      match trimEnd rest with
      | EmptyString => if is_white_space c then EmptyString
                       else String c EmptyString
      | r => String c r
      end
  end.

Definition trim (s : string) : string := trimEnd (trimStart s).

(** [input.split('\n').filter(line => line.trim() !== '')] *)
Definition parseLines (input : string) : list string :=
  List.filter (λ line, negb (String.eqb (trim line) "")) (split newline input).

(** *** State *)

(** What decoding the uploaded file gives: an audio buffer, of which
    only the duration is used, or a rejection with its message. *)
Inductive AudioFile : Type :=
| Decodes (duration : Q)
| Rejects (message : string).

(** The [useState] cells the timeline handlers read and write. *)
Record AppState : Type := mkApp {
  apiKey : string;
  promptsInput : string;
  scriptInput : string;
  audioFile : option AudioFile;
  project : option ProjectData;
  isGenerating : bool;
  currentTime : Q;
  error : option string
}.

Definition setError (e : option string) (st : AppState) : AppState :=
  {| apiKey := apiKey st; promptsInput := promptsInput st;
     scriptInput := scriptInput st; audioFile := audioFile st;
     project := project st; isGenerating := isGenerating st;
     currentTime := currentTime st; error := e |}.

Definition setProject (p : option ProjectData) (st : AppState) : AppState :=
  {| apiKey := apiKey st; promptsInput := promptsInput st;
     scriptInput := scriptInput st; audioFile := audioFile st;
     project := p; isGenerating := isGenerating st;
     currentTime := currentTime st; error := error st |}.

Definition setIsGenerating (b : bool) (st : AppState) : AppState :=
  {| apiKey := apiKey st; promptsInput := promptsInput st;
     scriptInput := scriptInput st; audioFile := audioFile st;
     project := project st; isGenerating := b;
     currentTime := currentTime st; error := error st |}.

Definition setCurrentTime (t : Q) (st : AppState) : AppState :=
  {| apiKey := apiKey st; promptsInput := promptsInput st;
     scriptInput := scriptInput st; audioFile := audioFile st;
     project := project st; isGenerating := isGenerating st;
     currentTime := t; error := error st |}.

(** *** [initializeProject] (lines 119-174) *)

Definition missingInputsMessage : string :=
  "Please fill in all 3 boxes: Prompts, Script, and Audio.".

Definition missingKeyMessage : string :=
  "API Key missing or invalid. Please set a valid key in the top right.".

Definition mismatchMessage (prompts scripts : nat) : string :=
  "Mismatch: " +:+ pretty prompts +:+ " prompts vs " +:+ pretty scripts
    +:+ " script lines. They must act as pairs.".

(** The message of the TypeError of [scripts[idx].trim()] on an
    undefined [scripts[idx]]. *)
Definition undefinedTrimMessage : string :=
  "Cannot read properties of undefined (reading 'trim')".

(** The message of the TypeError of [audioFile.arrayBuffer()] on a null
    [audioFile]. *)
Definition nullArrayBufferMessage : string :=
  "Cannot read properties of null (reading 'arrayBuffer')".

(** [idx * interval] with [interval = duration / count], product and
    quotient taken exactly; [AutoAlign.evenStart] below has them as
    parameters.  The quotient is used by the callback of [map] only, hence
    only for a non-empty array, where it is a finite number. *)
Definition evenStart (duration : Q) (count idx : nat) : Q :=
  (inject_Z (Z.of_nat idx) * (duration / inject_Z (Z.of_nat count)))%Q.

(** Lines 149-155: [prompts.map((prompt, idx) => ...)], from index [idx]
    on; [None] when [scripts[idx]] is undefined. *)
Fixpoint initialScenes_from (idx : nat) (prompts scripts : list string)
    (duration : Q) (count : nat) : option (list Scene) :=
  match prompts with
  | [] => Some []
  | prompt :: rest =>
      line ← scripts !! idx;
      tail ← initialScenes_from (S idx) rest scripts duration count;
      Some ({| id := idx + 1;
               prompt := trim prompt;
               script := trim line;
               status := Pending;
               startTime := evenStart duration count idx;
               imageUrl := None |} :: tail)
  end.

Definition initialScenes (prompts scripts : list string) (duration : Q)
    : option (list Scene) :=
  initialScenes_from 0 prompts scripts duration (length prompts).

(** The [catch] and [finally] blocks. *)
Definition failWith (message : string) (st : AppState) : AppState :=
  setIsGenerating false (setProject None (setError (Some message) st)).

(** Line 166: [generateVisuals(newProject, apiKey)] runs up to its first
    [await] before the handler goes on.  When there is a scene, that is
    the updater of lines 183-188 for [i = 0], queued behind
    [setProject(newProject)] and so applied to it. *)
Definition startVisuals (newProject : ProjectData) : ProjectData :=
  with_scenes (alter (with_status GeneratingImage) 0 (scenes newProject))
    newProject.

(** The state once the updates the handler has queued by the end of its
    [finally] block are applied; the rest of the image generation it has
    started is [generateVisuals] below. *)
Definition initializeProject (st : AppState) : AppState :=
  if String.eqb (trim (promptsInput st)) ""
     || String.eqb (trim (scriptInput st)) ""
     || bool_decide (audioFile st = None)
  then setError (Some missingInputsMessage) st
  else if String.eqb (apiKey st) ""
  then setError (Some missingKeyMessage) st
  else
    let st := setIsGenerating true (setError None st) in
    let prompts := parseLines (promptsInput st) in
    let scripts := parseLines (scriptInput st) in
    if negb (length prompts =? length scripts)
    then failWith (mismatchMessage (length prompts) (length scripts)) st
    else
      match audioFile st with
      | None => failWith nullArrayBufferMessage st
      | Some (Rejects message) => failWith message st
      | Some (Decodes duration) =>
          match initialScenes prompts scripts duration with
          | None => failWith undefinedTrimMessage st
          | Some initialScenes =>
              setIsGenerating false
                (setProject
                   (Some (startVisuals {| scenes := initialScenes;
                                          duration := duration |})) st)
          end
      end.

(** *** [generateVisuals] (lines 176-210)

    The loop runs without other handlers in between.  The scene objects
    are shared by [currentProject.scenes], its copy [scenes] and every
    [prev.scenes]; the loop reads only [prompt] from the copy, which no
    update writes, so the store of scenes is the list in the state. *)

(** [updated[i] = f(updated[i])] inside a [setProject] updater: the
    outer [None] is the TypeError on an undefined [updated[i]], the
    inner one the [null] project. *)
Definition updateScene (i : nat) (f : Scene → Scene)
    (prev : option ProjectData) : option (option ProjectData) :=
  match prev with
  | None => Some None
  | Some prev =>
      scene ← scenes prev !! i;
      Some (Some (with_scenes (<[i := f scene]> (scenes prev)) prev))
  end.

(** The project state and the prompts sent to [generateSceneImage] so
    far, oldest first. *)
Record Generation : Type := mkGeneration {
  genProject : option ProjectData;
  genCalls : list string
}.

(** One turn of the loop; [generateSceneImage i p] is the image URL the
    call for scene [i] resolves to, or [None] when it throws. *)
Definition generateVisuals_step
    (scenes : list Scene) (generateSceneImage : nat → string → option string)
    (g : Generation) (i : nat) : option Generation :=
  prev ← updateScene i (with_status GeneratingImage) (genProject g);
  scene ← scenes !! i;
  let calls := genCalls g ++ [prompt scene] in
  match generateSceneImage i (prompt scene) with
  | Some imageUrl =>
      prev ← updateScene i (λ s, with_status Ready (with_imageUrl imageUrl s))
               prev;
      Some {| genProject := prev; genCalls := calls |}
  | None =>
      prev ← updateScene i (with_status Error) prev;
      Some {| genProject := prev; genCalls := calls |}
  end.

(** [for (let i = 0; i < scenes.length; i++)], from the state [g]. *)
Definition generateVisuals_loop
    (scenes : list Scene) (generateSceneImage : nat → string → option string)
    (g : Generation) (indices : list nat) : option Generation :=
  foldl (λ g i, g ← g; generateVisuals_step scenes generateSceneImage g i)
    (Some g) indices.

(** [prev] is the project state when the loop starts; [initializeProject]
    starts it right after [setProject(newProject)]. *)
Definition generateVisuals (currentProject : ProjectData)
    (generateSceneImage : nat → string → option string)
    (prev : option ProjectData) : option Generation :=
  let scenes := scenes currentProject in
  generateVisuals_loop scenes generateSceneImage
    {| genProject := prev; genCalls := [] |} (seq 0 (length scenes)).

(** What the claim expects of scene [i] once the loop is over. *)
Definition generated (generateSceneImage : nat → string → option string)
    (i : nat) (s : Scene) : Scene :=
  match generateSceneImage i (prompt s) with
  | Some imageUrl => with_status Ready (with_imageUrl imageUrl s)
  | None => with_status Error s
  end.

(** The scenes once the first [k] turns of the loop are over. *)
Definition generated_upto (generateSceneImage : nat → string → option string)
    (k : nat) (scs : list Scene) : list Scene :=
  imap (λ i s, if i <? k then generated generateSceneImage i s else s) scs.

(** The loop state once the first [k] turns are over. *)
Definition after_turns (generateSceneImage : nat → string → option string)
    (currentProject : ProjectData) (k : nat) : Generation :=
  {| genProject :=
       Some (with_scenes
               (generated_upto generateSceneImage k (scenes currentProject))
               currentProject);
     genCalls := prompt <$> take k (scenes currentProject) |}.

(** *** The timing handlers (lines 220-253) *)

Definition handleTimeChange (id0 : nat) (newTime : Q) (st : AppState)
    : AppState :=
  match project st with
  | None => st
  | Some project =>
      let newScenes :=
        (λ s, if id s =? id0 then with_startTime newTime s else s)
          <$> scenes project in
      setProject (Some (with_scenes newScenes project)) st
  end.

Definition handleAutoAlign (st : AppState) : AppState :=
  match project st with
  | None => st
  | Some project =>
      let count := length (scenes project) in
      let newScenes :=
        imap (λ idx s, with_startTime (evenStart (duration project) count idx) s)
          (scenes project) in
      setProject (Some (with_scenes newScenes project)) st
  end.

(** Line 240. *)
Definition nextSceneIndex (project : ProjectData) (currentTime : Q)
    : option nat :=
  JS.findIndex (λ s, JS.gt (startTime s) currentTime) (scenes project).

(** Line 246; [None] when [newScenes[nextSceneIndex - 1]] is undefined. *)
Definition prevSceneTime (newScenes : list Scene) (nextSceneIndex : nat)
    : option Q :=
  if 0 <? nextSceneIndex
  then startTime <$> newScenes !! (nextSceneIndex - 1)
  else Some 0%Q.

(** The index comes from [findIndex], so [newScenes[nextSceneIndex]]
    exists when line 249 assigns to its [startTime]. *)
Definition handleRecordSync (st : AppState) : AppState :=
  match project st with
  | None => st
  | Some project =>
      match nextSceneIndex project (currentTime st) with
      | None => st
      | Some nextSceneIndex =>
          let newScenes := scenes project in
          match prevSceneTime newScenes nextSceneIndex with
          | None => st
          | Some prevSceneTime =>
              if JS.ge (currentTime st) prevSceneTime
              then
                let newScenes :=
                  alter (with_startTime (currentTime st)) nextSceneIndex
                    newScenes in
                setProject (Some (with_scenes newScenes project)) st
              else st
          end
      end
  end.

(** The state of the application when a project with the given scenes
    and duration is open and the playback position is [t]. *)
Definition studio (scs : list Scene) (d : Q) (t : Q) : AppState :=
  {| apiKey := "key"; promptsInput := ""; scriptInput := "";
     audioFile := Some (Decodes d);
     project := Some {| scenes := scs; duration := d |};
     isGenerating := false; currentTime := t; error := None |}.

(** The start times of the open project. *)
Definition projectStartTimes (st : AppState) : list Q :=
  match project st with
  | None => []
  | Some project => startTimes (scenes project)
  end.

End App.


(** * The rest of the engine *)

(** ** More of the string built-ins *)

Module Text.

(** [arr.join(sep)] *)
Fixpoint join (sep : string) (arr : list string) : string :=
  match arr with
  | [] => EmptyString
  | x :: rest =>
      match rest with
      | [] => x
      | _ :: _ => x +:+ sep +:+ join sep rest
      end
  end.

(** The characters of a string, and whether one occurs in it. *)
Definition chars (s : string) : list ascii := list_ascii_of_string s.

Definition all_white_space (s : string) : bool :=
  forallb App.is_white_space (chars s).

Definition has_char (c : ascii) (s : string) : bool :=
  existsb (Ascii.eqb c) (chars s).

End Text.

(** ** The content generation service ([geminiService.ts]) *)

Module GeminiService.

(** Lines 13-16. *)
Record StoryboardSegment : Type := mkSegment {
  script : string;
  prompt : string
}.

(** [part.inlineData], with the text [mimeType] is printed as. *)
Record InlineData : Type := mkInlineData {
  mimeType : string;
  data : string
}.

Record Part : Type := mkPart {
  inlineData : option InlineData
}.

Definition noKeyMessage : string :=
  "API Key not found. Please enter it in the top right box.".

Definition noImageMessage : string := "No image generated".

(** Lines 4-11: the key the client is made with, or the message of the
    error thrown; an absent [apiKey] or [process.env.API_KEY] is the
    empty string. *)
Definition getAiClient (apiKey envKey : string) : string + string :=
  let key := if String.eqb apiKey "" then envKey else apiKey in
  if String.eqb key "" then inl noKeyMessage else inr key.

(** Lines 52-58: the loop over the parts of the response. *)
Fixpoint firstImage (parts : list Part) : option string :=
  match parts with
  | [] => None
  | part :: rest =>
      match inlineData part with
      | Some d =>
          if String.eqb (data d) "" then firstImage rest
          else Some ("data:" +:+ mimeType d +:+ ";base64," +:+ data d)
      | None => firstImage rest
      end
  end.

(** Lines 36-61.  [generateContent key text] is what the request made
    with that key gives: the message of the error it throws, or
    [response.candidates?.[0]?.content?.parts], [None] when undefined. *)
Definition generateSceneImage
    (generateContent : string → string → string + option (list Part))
    (envKey : string) (visualDescription apiKey : string) : string + string :=
  match getAiClient apiKey envKey with
  | inl message => inl message
  | inr key =>
      match generateContent key visualDescription with
      | inl message => inl message
      | inr None => inl noImageMessage
      | inr (Some parts) =>
          match firstImage parts with
          | Some url => inr url
          | None => inl noImageMessage
          end
      end
  end.

(** What [generateVisuals] sees of a call: the URL, or a throw. *)
Definition sceneImageOutcome
    (generateContent : string → string → string + option (list Part))
    (envKey key : string) (i : nat) (visualDescription : string)
    : option string :=
  match generateSceneImage generateContent envKey visualDescription key with
  | inr url => Some url
  | inl _ => None
  end.

End GeminiService.

(** ** Smart auto-fill ([App], lines 90-117) *)

Module SmartFill.

Import App.

Definition setPromptsInput (s : string) (st : AppState) : AppState :=
  {| apiKey := apiKey st; promptsInput := s;
     scriptInput := scriptInput st; audioFile := audioFile st;
     project := project st; isGenerating := isGenerating st;
     currentTime := currentTime st; error := error st |}.

Definition setScriptInput (s : string) (st : AppState) : AppState :=
  {| apiKey := apiKey st; promptsInput := promptsInput st;
     scriptInput := s; audioFile := audioFile st;
     project := project st; isGenerating := isGenerating st;
     currentTime := currentTime st; error := error st |}.

Definition emptyStoryMessage : string := "Please enter a raw story first.".

Definition newlineString : string := String newline EmptyString.

(** The state and the raw story box after the handler;
    [generateStoryboard text key] is the message of the error the call
    throws, or the segments it resolves to.  The processing flag, up
    during the call, is down again in the end. *)
Definition handleSmartGenerate (rawStoryInput : string)
    (generateStoryboard :
       string → string → string + list GeminiService.StoryboardSegment)
    (st : AppState) : AppState * string :=
  if String.eqb (trim rawStoryInput) ""
  then (setError (Some emptyStoryMessage) st, rawStoryInput)
  else if String.eqb (apiKey st) ""
  then (setError (Some missingKeyMessage) st, rawStoryInput)
  else
    let st := setError None st in
    match generateStoryboard rawStoryInput (apiKey st) with
    | inr segments =>
        let scriptLines :=
          Text.join newlineString (GeminiService.script <$> segments) in
        let promptLines :=
          Text.join newlineString (GeminiService.prompt <$> segments) in
        (setPromptsInput promptLines (setScriptInput scriptLines st),
         EmptyString)
    | inl message =>
        (setError (Some ("Failed to generate storyboard: " +:+ message)) st,
         rawStoryInput)
    end.

End SmartFill.

(** ** The playback clock and the controls of the player
    ([components/Player.tsx]) *)

Module PlayerClock.

(** Line 42. *)
Definition nextScene (scenes : list Scene) (currentTime : Q) : option Scene :=
  let activeSceneIndex := Player.activeSceneIndex scenes currentTime in
  if (Z.of_nat activeSceneIndex <? Z.of_nat (length scenes) - 1)%Z
  then scenes !! (activeSceneIndex + 1)
  else None.



End PlayerClock.

(** ** The scene list of the studio view ([App], lines 494-505) *)

Module SceneList.

(** The [isActive] prop of the card of scene [idx]. *)
Definition isActive (project : ProjectData) (currentTime : Q) (idx : nat)
    (scene : Scene) : bool :=
  JS.ge currentTime (startTime scene)
  && match scenes project !! (idx + 1) with
     | None => true
     | Some next => JS.gt (startTime next) currentTime
     end.

(** [onClick] of a card: the new playback position. *)
Definition onClick (scene : Scene) (st : App.AppState) : App.AppState :=
  App.setCurrentTime (startTime scene) st.

End SceneList.

(** ** The rest of the offline renderer ([services/videoRecorder.ts]) *)

Module ExportVideo.

(** Lines 45-66: [imageAssets[scene.id] = img] for every scene that has
    an [imageUrl] whose image loads; [loads] tells which sources fire
    [onload] rather than [onerror].  The images are entered here in
    array order; the order the browser loads them in matters only to
    which image is kept when two scenes share an id. *)
Definition preload (loads : string → bool) (scs : list Scene)
    : gmap nat string :=
  foldl
    (λ imageAssets scene,
       match imageUrl scene with
       | Some src =>
           if String.eqb src "" then imageAssets
           else if loads src then <[id scene := src]> imageAssets
           else imageAssets
       | None => imageAssets
       end)
    ∅ scs.

(** Line 129: the argument of [onProgress]. *)
Definition reportedProgress (currentTime duration : Q) : JS.num :=
  JS.Math_min (JS.Fin 100)
    (JS.mul (JS.div currentTime duration) (JS.Fin 100)).

(** Lines 9-20 of [wrapText]: the loop over the words, from word [n],
    with the lines pushed so far and the line being filled. *)
Fixpoint wrapWords (measureText : string → Q) (maxWidth : Q) (n : nat)
    (lines : list string) (line : string) (words : list string)
    : list string :=
  match words with
  | [] => lines ++ [line]
  | word :: rest =>
      let testLine := line +:+ word +:+ " " in
      let testWidth := measureText testLine in
      if JS.gt testWidth maxWidth && (0 <? n)
      then wrapWords measureText maxWidth (S n) (lines ++ [line])
             (word +:+ " ") rest
      else wrapWords measureText maxWidth (S n) lines testLine rest
  end.

Definition space : ascii := ascii_of_nat 32.

(** The lines [wrapText] draws. *)
Definition wrapLines (measureText : string → Q) (text : string) (maxWidth : Q)
    : list string :=
  wrapWords measureText maxWidth 0 [] EmptyString (App.split space text).

(** Lines 22-25: the calls [ctx.fillText(line, x, y)] it makes. *)
Definition wrapText (measureText : string → Q) (text : string)
    (x y maxWidth lineHeight : Q) : list (string * Q * Q) :=
  imap (λ k line, (line, x, (y + inject_Z (Z.of_nat k) * lineHeight)%Q))
    (wrapLines measureText text maxWidth).

End ExportVideo.

(** ** Aspect fill ([services/videoRecorder.ts], lines 35-36 and 177-192) *)

Module AspectFill.

Definition width : Q := 1920.
Definition height : Q := 1080.

(** Where [drawImage] puts the image. *)
Record Placement : Type := mkPlacement {
  offsetX : Q;
  offsetY : Q;
  renderW : Q;
  renderH : Q
}.

(** The rectangle for an image of the given size; [None] when a division
    by zero takes a coordinate out of the finite numbers. *)
Definition place (imgWidth imgHeight : Q) : option Placement :=
  match JS.div imgWidth imgHeight with
  | JS.Fin imgRatio =>
      let canvasRatio := (width / height)%Q in
      if JS.gt imgRatio canvasRatio
      then
        let renderH := height in
        let renderW := (height * imgRatio)%Q in
        Some {| offsetX := (width - renderW) / 2; offsetY := 0;
                renderW := renderW; renderH := renderH |}
      else
        match JS.div width imgRatio with
        | JS.Fin renderH =>
            let renderW := width in
            Some {| offsetX := 0; offsetY := (height - renderH) / 2;
                    renderW := renderW; renderH := renderH |}
        | _ => None
        end
  | _ => None
  end.

End AspectFill.

(** ** Raw PCM decoding ([services/audioUtils.ts]) *)

Module AudioUtils.

(** Lines 2-10, after [atob]: the char codes of the binary string. *)
Definition atobUint8 (binaryString : string) : list Z :=
  (λ c, Z.of_nat (nat_of_ascii c)) <$> list_ascii_of_string binaryString.

(** A 16-bit pattern read as a signed integer. *)
Definition toInt16 (v : Z) : Z :=
  if (v <? 32768)%Z then v else (v - 65536)%Z.

(** [new Int16Array(bytes.buffer)], little-endian; [None] is the
    RangeError on a byte length that is not a multiple of 2. *)
Fixpoint int16Array (bytes : list Z) : option (list Z) :=
  match bytes with
  | [] => Some []
  | lo :: rest =>
      match rest with
      | [] => None
      | hi :: rest' =>
          tail ← int16Array rest';
          Some (toInt16 (lo + 256 * hi) :: tail)
      end
  end.

(** Lines 17-33: the samples computed for channel 0, exact in the 32-bit
    floats that receive them; the creation of the buffer, which refuses
    an empty one, is left out. *)
Definition channelData (binaryString : string) : option (list Q) :=
  match int16Array (atobUint8 binaryString) with
  | None => None
  | Some dataInt16 => Some ((λ v, (inject_Z v / 32768)%Q) <$> dataInt16)
  end.

(** The two bytes of a 16-bit sample, low byte first. *)
Definition int16Bytes (v : Z) : list Z :=
  let u := (v mod 65536)%Z in [(u mod 256)%Z; (u / 256)%Z].

(** What a call of [decodeAudioData] comes to: the exception thrown, or
    the one-channel buffer returned, given by its samples. *)
Inductive Decoded :=
  | RangeError
  | NotSupportedError
  | Buffer (channelData : list Q).

(** Lines 12-36, from the binary string that [atob] returns.  The 16-bit
    view of line 21 throws a RangeError on an odd byte length;
    [ctx.createBuffer] of line 25 throws a NotSupportedError when
    [frameCount] is 0 or when the context does not take the sample rate
    ([supportsRate], a matter of the browser); otherwise lines 27-33 fill
    channel 0. *)
Definition decodeAudioData (supportsRate : Q → bool) (binaryString : string)
    (sampleRate : Q) : Decoded :=
  match int16Array (atobUint8 binaryString) with
  | None => RangeError
  | Some dataInt16 =>
      let frameCount := length dataInt16 in
      if (frameCount =? 0) || negb (supportsRate sampleRate)
      then NotSupportedError
      else Buffer ((λ v, (inject_Z v / 32768)%Q) <$> dataInt16)
  end.

End AudioUtils.

(** ** Double precision

    Where the outcome depends on how products and quotients are rounded,
    the doubles are the rationals that [round] returns. *)

Module Double.

(** [2 ^ e] for an integer [e], negative ones included. *)
Definition pow2 (e : Z) : Q := (2 ^ e)%Q.

(** The nearest integer to a rational that is not negative, ties to
    even. *)
Definition nearestEven (q : Q) : Z :=
  let n := Qnum q in
  let d := Zpos (Qden q) in
  let quo := (n / d)%Z in
  match (2 * (n mod d) ?= d)%Z with
  | Lt => quo
  | Gt => (quo + 1)%Z
  | Eq => if Z.even quo then quo else (quo + 1)%Z
  end.

(** The exponent of the last place of the double nearest to [q > 0]: the
    [e] with [2^52 <= q / 2^e < 2^53], and -1074 for the subnormals. *)
Definition lastPlace (q : Q) : Z :=
  let e1 := (Z.log2 (Qnum q) - Z.log2 (Zpos (Qden q)) - 52)%Z in
  let e := if Qle_bool (pow2 52) (q * pow2 (- e1))
           then e1 else (e1 - 1)%Z in
  Z.max e (-1074).

Definition roundPositive (q : Q) : Q :=
  let e := lastPlace q in
  (inject_Z (nearestEven (q * pow2 (- e))) * pow2 e)%Q.

(** Rounding to the nearest double, ties to even.  Overflow to
    [Infinity] is left out: the numbers rounded below are the interval
    [duration / count] and its products by the indices below [count],
    none of them above the duration, a finite double. *)
Definition round (q : Q) : Q :=
  match Qnum q with
  | Z0 => 0%Q
  | Zpos _ => roundPositive q
  | Zneg _ => (- roundPositive (- q))%Q
  end.

(** [a * b] and, for [b] other than 0, [a / b] on doubles. *)
Definition mul (a b : Q) : Q := round (a * b).
Definition div (a b : Q) : Q := round (a / b).

End Double.

(** ** Auto-align, with its arithmetic

    [handleAutoAlign] (lines 226-234) with [*] and [/] as parameters:
    [Double.mul] and [Double.div] give what the code computes, and
    [App.handleAutoAlign] is the instance at exact arithmetic. *)

Module AutoAlign.

Import App.

(** [idx * interval] with [interval = project.duration / count]. *)
Definition evenStart (times divide : Q → Q → Q) (duration : Q)
    (count idx : nat) : Q :=
  times (inject_Z (Z.of_nat idx)) (divide duration (inject_Z (Z.of_nat count))).

Definition handleAutoAlign (times divide : Q → Q → Q) (st : AppState)
    : AppState :=
  match project st with
  | None => st
  | Some project =>
      let count := length (scenes project) in
      let newScenes :=
        imap (λ idx s,
                with_startTime
                  (evenStart times divide (duration project) count idx) s)
          (scenes project) in
      setProject (Some (with_scenes newScenes project)) st
  end.

End AutoAlign.

(** ** Properties of lines and timelines *)

(** A line fits the width, or holds a single word of the text. *)
Definition fits_or_single (measureText : string → Q) (maxWidth : Q)
    (all : list string) (line : string) : Prop :=
  (measureText line <= maxWidth)%Q
  ∨ ∃ word, word ∈ all ∧ line = word +:+ " ".


(** The binary string whose char codes are the given bytes. *)
Definition binaryStringOf (bytes : list Z) : string :=
  string_of_list_ascii ((λ b, ascii_of_nat (Z.to_nat b)) <$> bytes).

(** A part of a response that holds no image data. *)
Definition imageless (part : GeminiService.Part) : Prop :=
  match GeminiService.inlineData part with
  | Some d => GeminiService.data d = EmptyString
  | None => True
  end.

(** Start times that never go down along the array. *)
Definition non_decreasing (scs : list Scene) : Prop :=
  ∀ i j s s', i ≤ j → scs !! i = Some s → scs !! j = Some s' →
    (startTime s <= startTime s')%Q.

(** * Proofs *)

(** ** Properties of the resolver *)

Section Resolver.

Variable time : Q.

Let pick (bestIndex : nat) (scene : Scene) (idx : nat) : nat :=
  if Qle_bool (startTime scene) time then idx else bestIndex.

(** The fold keeps the accumulator when nothing in the rest of the array
    has started, and otherwise ends on the last element that has. *)
Lemma reduce_pick_spec (scs : list Scene) (idx acc : nat) :
  (∃ j s, scs !! j = Some s ∧ (startTime s <= time)%Q
          ∧ JS.reduce_from pick idx acc scs = idx + j
          ∧ ∀ j' s', scs !! j' = Some s' → (startTime s' <= time)%Q → j' ≤ j)
  ∨ ((∀ j s, scs !! j = Some s → ¬ (startTime s <= time)%Q)
     ∧ JS.reduce_from pick idx acc scs = acc).
Proof.
  revert idx acc. induction scs as [|x rest IH]; intros idx acc.
  - right. split; [intros j s Hj; discriminate | reflexivity].
  - cbn [JS.reduce_from].
    destruct (IH (S idx) (pick acc x idx))
      as [(j & s & Hj & Hs & Hr & Hmax) | [Hnone Hr]].
    + left. exists (S j), s. split_and!; [done | done | rewrite Hr; lia |].
      intros [|j'] s' Hj' Hs'; [lia |].
      cbn in Hj'. specialize (Hmax j' s' Hj' Hs'). lia.
    + assert (Hp : pick acc x idx
                   = if Qle_bool (startTime x) time then idx else acc)
        by reflexivity.
      rewrite Hp in Hr |- *.
      destruct (Qle_bool (startTime x) time) eqn:Hx.
      * left. exists 0, x. apply Qle_bool_iff in Hx.
        split_and!; [done | done | rewrite Hr; lia |].
        intros [|j'] s' Hj' Hs'; [lia |].
        cbn in Hj'. exfalso. by eapply Hnone.
      * right. split; [| done].
        intros [|j] s Hj Hs; cbn in Hj.
        -- inversion Hj; subst s. apply Qle_bool_iff in Hs. congruence.
        -- by eapply Hnone.
Qed.

Lemma activeSceneIndex_last_qualifying (scs : list Scene) :
  last_qualifying scs time (Player.activeSceneIndex scs time).
Proof.
  unfold Player.activeSceneIndex, JS.reduce.
  destruct (reduce_pick_spec scs 0 0)
    as [(j & s & Hj & Hs & Hr & Hmax) | [Hnone Hr]].
  - left. fold pick. rewrite Hr. cbn. split.
    + by exists s.
    + intros j' (s' & Hj' & Hs'). by eapply Hmax.
  - right. fold pick. rewrite Hr. split; [| done].
    intros j (s & Hj & Hs). by eapply Hnone.
Qed.

End Resolver.

Lemma renderer_index_is_player_index (project : ProjectData) (time : Q) :
  VideoRecorder.activeSceneIndex project time
  = Player.activeSceneIndex (scenes project) time.
Proof. reflexivity. Qed.

(** Claim C1.  For every scene list and every time, the active scene index,
    in the player and in the renderer, is the greatest array index [i] with
    [scenes[i].startTime <= time], and 0 when no scene has started; no
    ordering of the start times is assumed. *)
Theorem activeSceneIndex_greatest_started (project : ProjectData) (time : Q) :
  last_qualifying (scenes project) time
    (Player.activeSceneIndex (scenes project) time)
  ∧ last_qualifying (scenes project) time
      (VideoRecorder.activeSceneIndex project time).
Proof.
  rewrite renderer_index_is_player_index.
  split; apply activeSceneIndex_last_qualifying.
Qed.

(** The rule on a list whose start times go down and up again. *)
Example activeSceneIndex_non_monotonic :
  Player.activeSceneIndex (scenes_at [5; 1; 8; 3; 9]%Q) 4 = 3
  ∧ Player.activeSceneIndex (scenes_at [5; 1; 8; 3; 9]%Q) 0 = 0.
Proof. split; reflexivity. Qed.

(** Claim C2.  The interactive player and the offline renderer compute the
    same active scene index from the same scenes and time. *)
Theorem player_renderer_parity (project : ProjectData) (time : Q) :
  Player.activeSceneIndex (scenes project) time
  = VideoRecorder.activeSceneIndex project time.
Proof.
  unfold Player.activeSceneIndex, VideoRecorder.activeSceneIndex.
  reflexivity.
Qed.

(** Claim C8 as stated fails: with start times [5; 1] and time 2, the time
    is before the first scene's start, yet scene 1 has started and is the
    active one. *)
Lemma first_scene_fallback_counterexample :
  ¬ (∀ (scs : list Scene) (time : Q) (s0 : Scene),
       scs !! 0 = Some s0 → (time < startTime s0)%Q →
       Player.activeSceneIndex scs time = 0).
Proof.
  intros H.
  specialize (H (scenes_at [5; 1]%Q) 2%Q (scene_at 0 5) eq_refl).
  assert (Hlt : (2 < startTime (scene_at 0 5))%Q) by (cbn; lra).
  specialize (H Hlt). vm_compute in H. discriminate.
Qed.

(** Claim C8, amended.  For every non-empty scene sequence in which no
    scene starts before [scenes[0]] (every sequence with non-decreasing
    start times is one) and every time strictly less than
    [scenes[0].startTime], the active scene index is 0. *)
Theorem first_scene_fallback (scs : list Scene) (time : Q) (s0 : Scene) :
  scs !! 0 = Some s0 →
  (∀ i s, scs !! i = Some s → (startTime s0 <= startTime s)%Q) →
  (time < startTime s0)%Q →
  Player.activeSceneIndex scs time = 0.
Proof.
  intros H0 Hmin Hlt.
  destruct (activeSceneIndex_last_qualifying time scs)
    as [[(s & Hs & Hle) _] | [_ Hr]]; [| done].
  specialize (Hmin _ _ Hs). lra.
Qed.

Lemma first_scene_fallback_witness :
  Player.activeSceneIndex (scenes_at [5; 7; 6]%Q) 2 = 0.
Proof.
  apply (first_scene_fallback (scenes_at [5; 7; 6]%Q) 2 (scene_at 0 5)).
  - reflexivity.
  - intros [|[|[|i]]] s Hs; cbn in Hs; inversion Hs; subst s; cbn; lra.
  - cbn. lra.
Defined.


(** ** Live sync *)

Section RecordSync.

Import App.

Lemma gt_true (a b : Q) : JS.gt a b = true ↔ (b < a)%Q.
Proof.
  unfold JS.gt. rewrite negb_true_iff.
  destruct (Qle_bool a b) eqn:E.
  - apply Qle_bool_iff in E. split; [discriminate | lra].
  - split; [intros _ | done].
    apply Qnot_le_lt. intros H. apply Qle_bool_iff in H. congruence.
Qed.

Lemma ge_true (a b : Q) : JS.ge a b = true ↔ (b <= a)%Q.
Proof. unfold JS.ge. apply Qle_bool_iff. Qed.

(** [findIndex] returns the first scene, by array order, that starts
    after the playback position. *)
Lemma nextSceneIndex_Some (project : ProjectData) (t : Q) (i : nat) :
  nextSceneIndex project t = Some i ↔
  ∃ s, scenes project !! i = Some s ∧ (t < startTime s)%Q
       ∧ ∀ j y, scenes project !! j = Some y → j < i → (startTime y <= t)%Q.
Proof.
  unfold nextSceneIndex, JS.findIndex. split.
  - intros H. apply fmap_Some in H as ([i' s] & Hfind & ->).
    apply list_find_Some in Hfind as (Hs & Hgt & Hbefore).
    exists s. split_and!; [done | by apply gt_true |].
    intros j y Hy Hj. specialize (Hbefore j y Hy Hj).
    apply Qnot_lt_le. intros Hlt. by apply Hbefore, gt_true.
  - intros (s & Hs & Hgt & Hbefore).
    apply fmap_Some. exists (i, s). split; [| done].
    apply list_find_Some. split_and!; [done | by apply gt_true |].
    intros j y Hy Hj Hgt'. apply gt_true in Hgt'.
    specialize (Hbefore j y Hy Hj). lra.
Qed.

Lemma nextSceneIndex_None (project : ProjectData) (t : Q) :
  nextSceneIndex project t = None ↔
  ∀ j y, scenes project !! j = Some y → (startTime y <= t)%Q.
Proof.
  unfold nextSceneIndex, JS.findIndex.
  rewrite fmap_None, list_find_None, Forall_lookup. split.
  - intros H j y Hy. apply Qnot_lt_le. intros Hlt.
    by apply (H j y Hy), gt_true.
  - intros H j y Hy Hgt. apply gt_true in Hgt. specialize (H j y Hy). lra.
Qed.

(** The scene before the next one exists, and has started. *)
Lemma prevSceneTime_started (project : ProjectData) (t : Q) (i : nat) :
  nextSceneIndex project t = Some i →
  ∃ prev, prevSceneTime (scenes project) i = Some prev
          ∧ (0 < i → (prev <= t)%Q) ∧ (i = 0 → prev = 0%Q).
Proof.
  intros (s & Hs & Hgt & Hbefore)%nextSceneIndex_Some.
  unfold prevSceneTime. destruct i as [|i]; cbn.
  - exists 0%Q. split_and!; [done | lia | done].
  - rewrite Nat.sub_0_r.
    destruct (scenes project !! i) as [y|] eqn:Hy.
    + exists (startTime y). split_and!; [done | | lia].
      intros _. apply (Hbefore i y Hy). lia.
    + apply lookup_ge_None in Hy. apply lookup_lt_Some in Hs. lia.
Qed.

(** The three ways through the handler. *)
Lemma handleRecordSync_none (st : AppState) (project : ProjectData) :
  App.project st = Some project →
  nextSceneIndex project (currentTime st) = None →
  handleRecordSync st = st.
Proof. intros Hp Hn. unfold handleRecordSync. by rewrite Hp, Hn. Qed.

Lemma handleRecordSync_accept (st : AppState) (project : ProjectData)
    (i : nat) (prev : Q) :
  App.project st = Some project →
  nextSceneIndex project (currentTime st) = Some i →
  prevSceneTime (scenes project) i = Some prev →
  (prev <= currentTime st)%Q →
  handleRecordSync st
  = setProject
      (Some (with_scenes
               (alter (with_startTime (currentTime st)) i (scenes project))
               project)) st.
Proof.
  intros Hp Hn Hprev Hle. unfold handleRecordSync.
  rewrite Hp, Hn, Hprev.
  by rewrite (proj2 (ge_true (currentTime st) prev) Hle).
Qed.

Lemma handleRecordSync_reject (st : AppState) (project : ProjectData)
    (i : nat) (prev : Q) :
  App.project st = Some project →
  nextSceneIndex project (currentTime st) = Some i →
  prevSceneTime (scenes project) i = Some prev →
  (currentTime st < prev)%Q →
  handleRecordSync st = st.
Proof.
  intros Hp Hn Hprev Hlt. unfold handleRecordSync.
  rewrite Hp, Hn, Hprev.
  destruct (JS.ge (currentTime st) prev) eqn:E; [| done].
  apply ge_true in E. lra.
Qed.

End RecordSync.

(** Claim C5 as stated fails in its example: after the sync at 7 has moved
    scene 2, the sync at 3 is not rejected: scene 1 is then the first
    scene that starts after 3, scene 0 before it starts at 0, and the
    state changes. *)
Lemma recordSync_example_counterexample :
  let synced := App.handleRecordSync (App.studio (scenes_at [0; 5; 10]%Q) 30 7) in
  App.projectStartTimes synced = [0; 5; 7]%Q
  ∧ App.handleRecordSync (App.setCurrentTime 3 synced)
    ≠ App.setCurrentTime 3 synced.
Proof.
  split; [reflexivity |].
  intros H. apply (f_equal App.projectStartTimes) in H.
  vm_compute in H. discriminate.
Qed.

(** Claim C5, amended.  Live sync sets the [startTime] of the first scene,
    by array order, whose [startTime] is greater than the playback position
    to that position and changes nothing else, and leaves the state as it
    is when the position is before the start time of the scene just before
    that one (0 when there is none).  With start times [0; 5; 10] a sync at
    7 sets scene 2's start time to 7, and a following sync at 3 is
    accepted: it sets scene 1's start time to 3. *)
Theorem recordSync_snaps_next_scene (st : App.AppState)
    (project : ProjectData) (i : nat) (prev : Q) :
  App.project st = Some project →
  App.nextSceneIndex project (App.currentTime st) = Some i →
  App.prevSceneTime (scenes project) i = Some prev →
  ((prev <= App.currentTime st)%Q →
     ∃ project' s,
       App.handleRecordSync st = App.setProject (Some project') st
       ∧ duration project' = duration project
       ∧ scenes project !! i = Some s
       ∧ (App.currentTime st < startTime s)%Q
       ∧ (∀ j y, scenes project !! j = Some y → j < i →
            (startTime y <= App.currentTime st)%Q)
       ∧ scenes project' !! i = Some (with_startTime (App.currentTime st) s)
       ∧ (∀ j, j ≠ i → scenes project' !! j = scenes project !! j)
       ∧ length (scenes project') = length (scenes project))
  ∧ ((App.currentTime st < prev)%Q → App.handleRecordSync st = st)
  ∧ (let synced :=
       App.handleRecordSync (App.studio (scenes_at [0; 5; 10]%Q) 30 7) in
     App.projectStartTimes synced = [0; 5; 7]%Q
     ∧ App.projectStartTimes
         (App.handleRecordSync (App.setCurrentTime 3 synced)) = [0; 3; 7]%Q).
Proof.
  intros Hp Hn Hprev. split_and!.
  - intros Hle.
    pose proof Hn as (s & Hs & Hgt & Hbefore)%nextSceneIndex_Some.
    eexists _, s. split_and!.
    + by eapply handleRecordSync_accept.
    + reflexivity.
    + done.
    + done.
    + done.
    + cbn. by rewrite list_lookup_alter_eq, Hs.
    + intros j Hj. cbn. by apply list_lookup_alter_ne.
    + cbn. apply length_alter.
  - intros Hlt. by eapply handleRecordSync_reject.
  - split; reflexivity.
Qed.

Lemma recordSync_snaps_next_scene_witness :
  App.handleRecordSync (App.studio (scenes_at [0; 5; 10]%Q) 30 (-1))
  = App.studio (scenes_at [0; 5; 10]%Q) 30 (-1).
Proof.
  apply (recordSync_snaps_next_scene
           (App.studio (scenes_at [0; 5; 10]%Q) 30 (-1))
           {| scenes := scenes_at [0; 5; 10]%Q; duration := 30 |} 0 0%Q).
  - reflexivity.
  - reflexivity.
  - reflexivity.
  - cbn. lra.
Defined.

(** Claim C10.  Whenever some scene starts after the playback position and
    the position is not negative, the ordering guard of live sync passes
    and the start time is written: the first scene that starts after the
    position has only started scenes before it, or none, in which case the
    guard compares the position with 0. *)
Theorem recordSync_guard_always_passes (st : App.AppState)
    (project : ProjectData) (i : nat) :
  App.project st = Some project →
  App.nextSceneIndex project (App.currentTime st) = Some i →
  (0 <= App.currentTime st)%Q →
  (∃ prev, App.prevSceneTime (scenes project) i = Some prev
           ∧ JS.ge (App.currentTime st) prev = true)
  ∧ App.handleRecordSync st
    = App.setProject
        (Some (with_scenes
                 (alter (with_startTime (App.currentTime st)) i
                    (scenes project))
                 project)) st.
Proof.
  intros Hp Hn Hpos.
  destruct (prevSceneTime_started _ _ _ Hn) as (prev & Hprev & Hlater & Hfirst).
  assert (Hle : (prev <= App.currentTime st)%Q).
  { destruct i as [|i]; [rewrite Hfirst by done; lra | apply Hlater; lia]. }
  split.
  - exists prev. split; [done | by apply ge_true].
  - by eapply handleRecordSync_accept.
Qed.

Lemma recordSync_guard_always_passes_witness :
  App.projectStartTimes
    (App.handleRecordSync (App.studio (scenes_at [0; 5; 10]%Q) 30 7))
  = [0; 5; 7]%Q.
Proof.
  pose proof (recordSync_guard_always_passes
                (App.studio (scenes_at [0; 5; 10]%Q) 30 7)
                {| scenes := scenes_at [0; 5; 10]%Q; duration := 30 |} 2
                eq_refl eq_refl) as H.
  assert (Hpos : (0 <= App.currentTime (App.studio (scenes_at [0; 5; 10]%Q) 30 7))%Q)
    by (cbn; lra).
  destruct (H Hpos) as [_ ->]. reflexivity.
Defined.


(** ** Even redistribution *)

Section AutoAlign.

Import App.

Lemma inject_nat_le (i k : nat) :
  (inject_Z (Z.of_nat i) <= inject_Z (Z.of_nat k))%Q ↔ i ≤ k.
Proof. rewrite <- Zle_Qle. lia. Qed.

Lemma interval_pos (d : Q) (n : nat) :
  (0 < d)%Q → 0 < n → (0 < d / inject_Z (Z.of_nat n))%Q.
Proof.
  intros Hd Hn. apply Qlt_shift_div_l.
  - replace 0%Q with (inject_Z 0) by reflexivity. rewrite <- Zlt_Qlt. lia.
  - lra.
Qed.

(** With a positive interval the even start times are ordered as their
    indices. *)
Lemma evenStart_le (d : Q) (n i k : nat) :
  (0 < d)%Q → 0 < n →
  (evenStart d n i <= evenStart d n k)%Q ↔ i ≤ k.
Proof.
  intros Hd Hn. unfold evenStart.
  rewrite Qmult_le_r by by apply interval_pos.
  apply inject_nat_le.
Qed.

Lemma handleAutoAlign_scenes (st : AppState) (project : ProjectData) :
  App.project st = Some project →
  App.project (handleAutoAlign st)
  = Some (with_scenes
            (imap (λ idx s,
                     with_startTime
                       (evenStart (duration project)
                          (length (scenes project)) idx) s)
               (scenes project)) project).
Proof. intros Hp. unfold handleAutoAlign. by rewrite Hp. Qed.

Lemma aligned_lookup (d : Q) (n : nat) (scs : list Scene) (i : nat) (s' : Scene) :
  imap (λ idx s, with_startTime (evenStart d n idx) s) scs !! i = Some s' →
  startTime s' = evenStart d n i ∧ i < length scs.
Proof.
  intros (s & Hs & ->)%list_lookup_imap_Some. split; [done |].
  by eapply lookup_lt_Some.
Qed.

(** On evenly spaced scenes the resolver inverts the spacing. *)
Lemma aligned_resolve (d : Q) (scs : list Scene) (k : nat) (time : Q) :
  (0 < d)%Q → k < length scs → (time == evenStart d (length scs) k)%Q →
  Player.activeSceneIndex
    (imap (λ idx s, with_startTime (evenStart d (length scs) idx) s) scs) time
  = k.
Proof.
  intros Hd Hk Ht.
  set (aligned := imap _ scs).
  set (r := Player.activeSceneIndex aligned time).
  assert (Hn : 0 < length scs) by lia.
  assert (Hqk : qualifies aligned time k).
  { destruct (lookup_lt_is_Some_2 scs k Hk) as [s Hs].
    exists (with_startTime (evenStart d (length scs) k) s). split.
    - unfold aligned. by rewrite list_lookup_imap, Hs.
    - cbn. lra. }
  pose proof (activeSceneIndex_last_qualifying time aligned) as Hlast.
  fold r in Hlast. clearbody r.
  destruct Hlast as [[(s' & Hs' & Hle) Hmax] | [Hnone _]].
  - apply aligned_lookup in Hs' as [Hstart _].
    rewrite Hstart in Hle.
    assert (Hle' : (evenStart d (length scs) r <= evenStart d (length scs) k)%Q)
      by lra.
    apply evenStart_le in Hle'; [| done..].
    specialize (Hmax k Hqk). lia.
  - by destruct (Hnone k).
Qed.

End AutoAlign.

(** ** Rounding to doubles *)

Section Rounding.

Import Double.

Lemma pow2_pos (e : Z) : (0 < pow2 e)%Q.
Proof. apply Qpower_0_lt. lra. Qed.

Lemma pow2_add (a b : Z) : (pow2 (a + b) == pow2 a * pow2 b)%Q.
Proof. apply Qpower_plus. lra. Qed.

Lemma pow2_cancel (e : Z) : (pow2 (- e) * pow2 e == 1)%Q.
Proof. rewrite <- pow2_add. replace (- e + e)%Z with 0%Z by lia. reflexivity. Qed.

Lemma pow2_inject (e : Z) : (0 <= e)%Z → (pow2 e == inject_Z (2 ^ e))%Q.
Proof. intros He. unfold pow2. by rewrite Zpower_Qpower. Qed.

(** The nearest integer is at most a half away. *)
Lemma nearestEven_near (q : Q) :
  (0 <= q)%Q →
  (q - (1 # 2) <= inject_Z (nearestEven q))%Q
  ∧ (inject_Z (nearestEven q) <= q + (1 # 2))%Q.
Proof.
  destruct q as [n d]. intros Hq.
  assert (Hn : (0 <= n)%Z) by (unfold Qle in Hq; cbn in Hq; lia).
  unfold nearestEven. cbn [Qnum Qden].
  pose proof (Z.div_mod n (Z.pos d) ltac:(lia)) as Hdm.
  pose proof (Z.mod_pos_bound n (Z.pos d) ltac:(lia)) as Hr.
  set (quo := (n / Z.pos d)%Z) in *. set (r := (n mod Z.pos d)%Z) in *.
  assert (Hgoal : ∀ N : Z, (2 * Z.abs (N * Z.pos d - n) <= Z.pos d)%Z →
            ((n # d) - (1 # 2) <= inject_Z N)%Q ∧ (inject_Z N <= (n # d) + (1 # 2))%Q).
  { intros N HN. unfold Qle, Qminus, Qplus, Qopp, inject_Z. cbn. nia. }
  destruct (Z.compare_spec (2 * r) (Z.pos d)) as [He | Hl | Hg].
  - destruct (Z.even quo); apply Hgoal; nia.
  - apply Hgoal; nia.
  - apply Hgoal; nia.
Qed.

(** A rational that is an integer is its own nearest integer. *)
Lemma nearestEven_integer (q : Q) (M : Z) :
  (q == inject_Z M)%Q → nearestEven q = M.
Proof.
  destruct q as [n d]. unfold Qeq, inject_Z. cbn. intros Hq.
  assert (Hn : n = (M * Z.pos d)%Z) by lia.
  unfold nearestEven. cbn [Qnum Qden]. subst n.
  rewrite Z.mod_mul, Z.div_mul by lia. cbn. reflexivity.
Qed.

Lemma pow2_52 : (pow2 52 == 4503599627370496)%Q.
Proof. reflexivity. Qed.

(** Above the subnormal numbers, [lastPlace] leaves 53 significant bits. *)
Lemma lastPlace_spec (q : Q) :
  (0 < q)%Q →
  (-1074 <= lastPlace q)%Z
  ∧ (lastPlace q = (-1074)%Z ∨ (pow2 52 <= q * pow2 (- lastPlace q))%Q).
Proof.
  intros Hq. unfold lastPlace.
  set (e1 := (Z.log2 (Qnum q) - Z.log2 (Z.pos (Qden q)) - 52)%Z).
  assert (Hlow : (pow2 52 <= q * pow2 (- (e1 - 1)))%Q).
  { destruct q as [a b]. cbn [Qnum Qden] in e1.
    assert (Ha : (0 < a)%Z) by (unfold Qlt in Hq; cbn in Hq; lia).
    destruct (Z.log2_spec a Ha) as [Hla _].
    destruct (Z.log2_spec (Z.pos b) ltac:(lia)) as [_ Hlb].
    pose proof (Z.log2_nonneg a) as Hpa.
    pose proof (Z.log2_nonneg (Z.pos b)) as Hpb.
    set (La := Z.log2 a) in *. set (Lb := Z.log2 (Z.pos b)) in *.
    replace (- (e1 - 1))%Z with (52 + ((Lb + 1) + - La))%Z by (unfold e1; lia).
    rewrite (pow2_add 52), (pow2_add (Lb + 1) (- La)), (Qmake_Qdiv a b).
    assert (HA : (pow2 La <= inject_Z a)%Q)
      by (rewrite pow2_inject by done; by rewrite <- Zle_Qle).
    assert (HB : (inject_Z (Z.pos b) <= pow2 (Lb + 1))%Q).
    { rewrite pow2_inject by lia. rewrite <- Zle_Qle.
      replace (Lb + 1)%Z with (Z.succ Lb) by lia. lia. }
    assert (HB0 : (0 < inject_Z (Z.pos b))%Q)
      by (replace 0%Q with (inject_Z 0) by reflexivity; by rewrite <- Zlt_Qlt).
    pose proof (pow2_cancel La) as Hc.
    pose proof (pow2_pos (- La)) as HnLa.
    pose proof (pow2_pos 52) as H52.
    set (A := inject_Z a) in *. set (B := inject_Z (Z.pos b)) in *.
    set (u := (A * pow2 (- La))%Q).
    set (v := (pow2 (Lb + 1) / B)%Q).
    assert (Hu : (1 <= u)%Q).
    { unfold u.
      pose proof (Qmult_le_compat_r _ _ (pow2 (- La)) HA
                    (Qlt_le_weak _ _ HnLa)) as Hm.
      lra. }
    assert (Hv : (1 <= v)%Q).
    { unfold v. apply Qle_shift_div_l; [done | lra]. }
    assert (Heq : (A / B * (pow2 52 * (pow2 (Lb + 1) * pow2 (- La)))
                   == pow2 52 * (u * v))%Q).
    { unfold u, v. field. lra. }
    assert (Huv : (1 <= u * v)%Q) by (clearbody u v; nra).
    assert (Hge : (pow2 52 <= pow2 52 * (u * v))%Q).
    { generalize dependent (u * v)%Q. generalize dependent (pow2 52).
      intros P HP w _ Hw. nra. }
    eapply Qle_trans; [exact Hge |].
    apply Qle_lteq. right. symmetry. exact Heq. }
  destruct (Qle_bool (pow2 52) (q * pow2 (- e1))) eqn:Htest.
  - apply Qle_bool_iff in Htest.
    destruct (Z.max_spec e1 (-1074)) as [[Hlt ->] | [Hle ->]].
    + split; [lia | by left].
    + split; [lia | by right].
  - destruct (Z.max_spec (e1 - 1) (-1074)) as [[Hlt ->] | [Hle ->]].
    + split; [lia | by left].
    + split; [lia | by right].
Qed.

(** Rounding a positive multiple of the smallest double moves it by at
    most the fraction [2^-53] of itself. *)
Lemma roundPositive_error (q : Q) (M : Z) :
  (0 < q)%Q → (q == inject_Z M * pow2 (-1074))%Q →
  (q * (1 - (1 # 9007199254740992)) <= roundPositive q)%Q
  ∧ (roundPositive q <= q * (1 + (1 # 9007199254740992)))%Q.
Proof.
  intros Hq HM. unfold roundPositive.
  destruct (lastPlace_spec q Hq) as [Hmin [He | Hnormal]].
  - rewrite He. change (- -1074)%Z with 1074%Z.
    assert (Hs : (q * pow2 1074 == inject_Z M)%Q).
    { rewrite HM, <- Qmult_assoc.
      rewrite (pow2_cancel 1074). lra. }
    rewrite (nearestEven_integer _ _ Hs), <- HM. split; lra.
  - set (e := lastPlace q) in *.
    pose proof (pow2_pos e) as Hp. pose proof (pow2_pos (- e)) as Hn.
    pose proof (pow2_cancel e) as Hc.
    set (s := (q * pow2 (- e))%Q) in *.
    assert (Hs0 : (0 <= s)%Q) by (rewrite pow2_52 in Hnormal; lra).
    destruct (nearestEven_near s Hs0) as [Hlo Hhi].
    assert (Hsp : (s * pow2 e == q)%Q).
    { unfold s. rewrite <- Qmult_assoc, Hc. lra. }
    rewrite pow2_52 in Hnormal.
    set (N := inject_Z (nearestEven s)) in *.
    set (p := pow2 e) in *. clearbody N p s.
    assert (H1 : ((s - (1 # 2)) * p <= N * p)%Q)
      by (apply Qmult_le_compat_r; lra).
    assert (H2 : (N * p <= (s + (1 # 2)) * p)%Q)
      by (apply Qmult_le_compat_r; lra).
    assert (H3 : (4503599627370496 * p <= s * p)%Q)
      by (apply Qmult_le_compat_r; lra).
    split; lra.
Qed.

Lemma round_positive (q : Q) : (0 < q)%Q → round q = roundPositive q.
Proof.
  destruct q as [[|n|n] d]; unfold Qlt; cbn; intros Hq; [lia | done | lia].
Qed.

Lemma roundPositive_nonneg (q : Q) : (0 <= q)%Q → (0 <= roundPositive q)%Q.
Proof.
  intros Hq. unfold roundPositive.
  set (e := lastPlace q).
  pose proof (pow2_pos e) as Hp. pose proof (pow2_pos (- e)) as Hn.
  assert (Hs : (0 <= q * pow2 (- e))%Q) by (apply Qmult_le_0_compat; lra).
  destruct (nearestEven_near _ Hs) as [Hlo _].
  set (N := nearestEven (q * pow2 (- e))) in *.
  assert (HN : (0 <= N)%Z).
  { destruct (Z_lt_le_dec N 0) as [Hneg |]; [| done].
    assert (Hle : (inject_Z N <= inject_Z (-1))%Q) by (rewrite <- Zle_Qle; lia).
    change (inject_Z (-1)) with (-1)%Q in Hle. lra. }
  apply Qmult_le_0_compat; [| lra].
  replace 0%Q with (inject_Z 0) by reflexivity. by rewrite <- Zle_Qle.
Qed.

(** Only a positive number rounds to a positive double. *)
Lemma round_positive_inv (q : Q) : (0 < round q)%Q → (0 < q)%Q.
Proof.
  destruct q as [[|n|n] d]; unfold round; cbn [Qnum]; intros Hr.
  - lra.
  - reflexivity.
  - assert (Hq : (0 <= - (Z.neg n # d))%Q) by (unfold Qle; cbn; lia).
    pose proof (roundPositive_nonneg _ Hq). lra.
Qed.

(** A double is a multiple of the smallest one. *)
Lemma round_multiple (q : Q) :
  (0 < q)%Q → ∃ M, (round q == inject_Z M * pow2 (-1074))%Q.
Proof.
  intros Hq. rewrite (round_positive q Hq). unfold roundPositive.
  destruct (lastPlace_spec q Hq) as [Hmin _].
  set (e := lastPlace q) in *.
  exists (nearestEven (q * pow2 (- e)) * 2 ^ (e + 1074))%Z.
  rewrite inject_Z_mult, <- (pow2_inject (e + 1074)) by lia.
  rewrite <- Qmult_assoc, <- pow2_add.
  by replace (e + 1074 + -1074)%Z with e by lia.
Qed.

(** The products of a positive double by the integers up to [2^52] grow
    with the integer, also once rounded. *)
Lemma mul_increasing (x : Q) (M : Z) (k j : nat) :
  (0 < x)%Q → (x == inject_Z M * pow2 (-1074))%Q →
  k < j → (Z.of_nat j <= 2 ^ 52)%Z →
  (mul (inject_Z (Z.of_nat k)) x < mul (inject_Z (Z.of_nat j)) x)%Q.
Proof.
  intros Hx HM Hkj Hj. unfold mul.
  assert (Hpos : ∀ i : nat, 0 < i → (0 < inject_Z (Z.of_nat i) * x)%Q).
  { intros i Hi. apply Qmult_lt_0_compat; [| done].
    replace 0%Q with (inject_Z 0) by reflexivity. rewrite <- Zlt_Qlt. lia. }
  assert (Hmult : ∀ i : nat,
            (inject_Z (Z.of_nat i) * x
             == inject_Z (Z.of_nat i * M) * pow2 (-1074))%Q).
  { intros i. rewrite inject_Z_mult, <- Qmult_assoc. by rewrite <- HM. }
  assert (HJ : (inject_Z (Z.of_nat j) <= 4503599627370496)%Q).
  { change 4503599627370496%Q with (inject_Z (2 ^ 52)). by rewrite <- Zle_Qle. }
  assert (HKJ : (inject_Z (Z.of_nat k) + 1 <= inject_Z (Z.of_nat j))%Q).
  { change 1%Q with (inject_Z 1). rewrite <- inject_Z_plus, <- Zle_Qle. lia. }
  assert (HK : (0 <= inject_Z (Z.of_nat k))%Q).
  { replace 0%Q with (inject_Z 0) by reflexivity. rewrite <- Zle_Qle. lia. }
  pose proof (Hpos j ltac:(lia)) as Hjx.
  rewrite (round_positive _ Hjx).
  destruct (roundPositive_error _ _ Hjx (Hmult j)) as [Hlo _].
  destruct k as [|k].
  - assert (H0 : round (inject_Z (Z.of_nat 0) * x) = 0%Q) by reflexivity.
    rewrite H0.
    set (J := inject_Z (Z.of_nat j)) in *. clearbody J.
    generalize dependent (roundPositive (J * x)). intros r Hr.
    generalize dependent (J * x)%Q. intros Jx HJx Hr. lra.
  - pose proof (Hpos (S k) ltac:(lia)) as Hkx.
    rewrite (round_positive _ Hkx).
    destruct (roundPositive_error _ _ Hkx (Hmult (S k))) as [_ Hhi].
    set (J := inject_Z (Z.of_nat j)) in *.
    set (K := inject_Z (Z.of_nat (S k))) in *. clearbody J K.
    assert (Hgap : ((K * (1 + (1 # 9007199254740992))) * x
                    < (J * (1 - (1 # 9007199254740992))) * x)%Q).
    { apply Qmult_lt_compat_r; [done | lra]. }
    generalize dependent (roundPositive (J * x)).
    generalize dependent (roundPositive (K * x)).
    intros rk Hrk rj Hrj. lra.
Qed.

(** When the interval does not round to 0, the start times that
    auto-align computes in doubles grow with the index. *)
Lemma double_starts_increase (d : Q) (n k j : nat) :
  (0 < div d (inject_Z (Z.of_nat n)))%Q →
  k < j → (Z.of_nat j <= 2 ^ 52)%Z →
  (AutoAlign.evenStart mul div d n k < AutoAlign.evenStart mul div d n j)%Q.
Proof.
  intros Hx Hkj Hj. unfold AutoAlign.evenStart.
  destruct (round_multiple _ (round_positive_inv _ Hx)) as [M HM].
  by apply (mul_increasing _ M).
Qed.

End Rounding.

(** The exact instance of the arithmetic gives [App.handleAutoAlign]. *)
Lemma handleAutoAlign_exact (st : App.AppState) :
  AutoAlign.handleAutoAlign Qmult Qdiv st = App.handleAutoAlign st.
Proof. reflexivity. Qed.

(** When the start time written for scene [k] is below those written for
    the later scenes, the resolver finds scene [k] at that time. *)
Lemma written_resolve (start : nat → Q) (scs : list Scene) (k : nat)
    (time : Q) :
  k < length scs →
  (∀ j, k < j < length scs → (start k < start j)%Q) →
  (time == start k)%Q →
  Player.activeSceneIndex
    (imap (λ idx s, with_startTime (start idx) s) scs) time
  = k.
Proof.
  intros Hk Hlater Ht.
  set (aligned := imap _ scs).
  set (r := Player.activeSceneIndex aligned time).
  assert (Hqk : qualifies aligned time k).
  { destruct (lookup_lt_is_Some_2 scs k Hk) as [s Hs].
    exists (with_startTime (start k) s). split.
    - unfold aligned. by rewrite list_lookup_imap, Hs.
    - cbn. lra. }
  pose proof (activeSceneIndex_last_qualifying time aligned) as Hlast.
  fold r in Hlast. clearbody r.
  destruct Hlast as [[(s' & Hs' & Hle) Hmax] | [Hnone _]].
  - apply list_lookup_imap_Some in Hs' as (s & Hs & ->).
    apply lookup_lt_Some in Hs. cbn in Hle.
    specialize (Hmax k Hqk).
    destruct (decide (r = k)) as [-> | Hne]; [done |].
    assert (Hlt : (start k < start r)%Q) by (apply Hlater; lia).
    lra.
  - by destruct (Hnone k).
Qed.

(** An audio of duration 0: every scene is reset to start at 0, and at
    time [0 * 0/2 = 0] the resolver returns the last scene, not scene 0. *)
Example autoAlign_zero_duration :
  ∃ project',
    App.project (AutoAlign.handleAutoAlign Double.mul Double.div
                   (App.studio (scenes_at [3; 4]%Q) 0 0)) = Some project'
    ∧ startTimes (scenes project') = [0; 0]%Q
    ∧ Player.activeSceneIndex (scenes project') 0 = 1.
Proof. eexists. split_and!; reflexivity. Qed.

(** Claim C6 as stated fails in the arithmetic of the code, also for a
    positive duration.  With 14 scenes and a duration of 58, the interval
    [58 / 14] rounds up, and 7 times it rounds to 29.000000000000004
    ([29 + 2^-48]), the start time written for scene 7.  The time
    [7 * 58/14] is 29, exactly and also as a double; scene 7 has not
    started there, and the player and the renderer resolve it to scene 6. *)
Lemma autoAlign_resolve_counterexample :
  ∃ project' s,
    App.project (AutoAlign.handleAutoAlign Double.mul Double.div
                   (App.studio (scenes_at (replicate 14 0%Q)) 58 0))
    = Some project'
    ∧ length (scenes project') = 14
    ∧ scenes project' !! 7 = Some s
    ∧ (startTime s == 29 + 1 / inject_Z (2 ^ 48))%Q
    ∧ (inject_Z 7 * 58 / inject_Z 14 == 29)%Q
    ∧ (Double.div (Double.mul (inject_Z 7) 58) (inject_Z 14) == 29)%Q
    ∧ Player.activeSceneIndex (scenes project') 29 = 6
    ∧ VideoRecorder.activeSceneIndex project' 29 = 6.
Proof. do 2 eexists. split_and!; reflexivity. Qed.

(** Auto-align in any arithmetic: every scene's [startTime] is reset to
    [index * (d/n)] and nothing else changes; when the start time written
    for scene [k] is below those of the later scenes, it resolves to
    scene [k]. *)
Lemma autoAlign_resolve_written (times divide : Q → Q → Q)
    (st : App.AppState) (project : ProjectData) (k : nat) (time : Q) :
  App.project st = Some project →
  k < length (scenes project) →
  (∀ j, k < j < length (scenes project) →
     (AutoAlign.evenStart times divide (duration project)
        (length (scenes project)) k
      < AutoAlign.evenStart times divide (duration project)
          (length (scenes project)) j)%Q) →
  (time == AutoAlign.evenStart times divide (duration project)
             (length (scenes project)) k)%Q →
  ∃ project',
    App.project (AutoAlign.handleAutoAlign times divide st) = Some project'
    ∧ duration project' = duration project
    ∧ length (scenes project') = length (scenes project)
    ∧ (∀ i s, scenes project !! i = Some s →
         scenes project' !! i
         = Some (with_startTime
                   (AutoAlign.evenStart times divide (duration project)
                      (length (scenes project)) i) s))
    ∧ Player.activeSceneIndex (scenes project') time = k
    ∧ VideoRecorder.activeSceneIndex project' time = k.
Proof.
  intros Hp Hk Hlater Ht. eexists. split_and!.
  - unfold AutoAlign.handleAutoAlign. by rewrite Hp.
  - reflexivity.
  - cbn. apply length_imap.
  - intros i s Hs. cbn. by rewrite list_lookup_imap, Hs.
  - cbn. by apply written_resolve.
  - rewrite renderer_index_is_player_index. cbn. by apply written_resolve.
Qed.

(** Claim C6, amended.  For a project with [n >= 1] scenes, at most
    [2^52], and a duration [d] whose interval [d/n] does not round to 0
    (so [d > 0]), auto-align resets every scene's [startTime] to
    [index * (d/n)] as doubles compute it and touches nothing else, and
    afterwards the active scene at the start time written for scene [k]
    is scene [k], for each index [k] below [n], in the player and in the
    renderer. *)
Theorem autoAlign_then_resolve (st : App.AppState) (project : ProjectData)
    (k : nat) (time : Q) :
  App.project st = Some project →
  (Z.of_nat (length (scenes project)) <= 2 ^ 52)%Z →
  (0 < Double.div (duration project)
         (inject_Z (Z.of_nat (length (scenes project)))))%Q →
  k < length (scenes project) →
  (time == AutoAlign.evenStart Double.mul Double.div (duration project)
             (length (scenes project)) k)%Q →
  ∃ project',
    App.project (AutoAlign.handleAutoAlign Double.mul Double.div st)
    = Some project'
    ∧ duration project' = duration project
    ∧ length (scenes project') = length (scenes project)
    ∧ (∀ i s, scenes project !! i = Some s →
         scenes project' !! i
         = Some (with_startTime
                   (AutoAlign.evenStart Double.mul Double.div
                      (duration project) (length (scenes project)) i) s))
    ∧ Player.activeSceneIndex (scenes project') time = k
    ∧ VideoRecorder.activeSceneIndex project' time = k.
Proof.
  intros Hp Hn Hx Hk Ht.
  apply autoAlign_resolve_written; [done.. | | done].
  intros j Hj. apply double_starts_increase; [done | lia..].
Qed.

Lemma autoAlign_then_resolve_witness :
  ∃ project',
    App.project (AutoAlign.handleAutoAlign Double.mul Double.div
                   (App.studio (scenes_at (replicate 14 0%Q)) 58 0))
    = Some project'
    ∧ Player.activeSceneIndex (scenes project')
        (Double.mul (inject_Z 7) (Double.div 58 (inject_Z 14))) = 7.
Proof.
  destruct (autoAlign_then_resolve
              (App.studio (scenes_at (replicate 14 0%Q)) 58 0)
              {| scenes := scenes_at (replicate 14 0%Q); duration := 58 |} 7
              (Double.mul (inject_Z 7) (Double.div 58 (inject_Z 14))))
    as (project' & Hp & _ & _ & _ & Hr & _).
  - reflexivity.
  - by vm_compute.
  - by vm_compute.
  - cbn. lia.
  - reflexivity.
  - by exists project'.
Defined.


(** ** Project creation *)

Section Create.

Import App.

(** When every index the callback reads exists in [scripts], the scenes
    are built, one per prompt, evenly spaced. *)
Lemma initialScenes_from_spec (prompts scripts : list string) (d : Q)
    (count idx : nat) :
  idx + length prompts ≤ length scripts →
  ∃ scs,
    initialScenes_from idx prompts scripts d count = Some scs
    ∧ length scs = length prompts
    ∧ ∀ i s, scs !! i = Some s →
        startTime s = evenStart d count (idx + i)
        ∧ id s = idx + i + 1
        ∧ status s = Pending
        ∧ imageUrl s = None
        ∧ ∃ p line, prompts !! i = Some p ∧ scripts !! (idx + i) = Some line
                    ∧ prompt s = trim p ∧ script s = trim line.
Proof.
  revert idx. induction prompts as [|p rest IH]; intros idx Hlen.
  - exists []. split_and!; [done | done |]. intros i s Hs. discriminate.
  - cbn [length] in Hlen. cbn [initialScenes_from].
    destruct (lookup_lt_is_Some_2 scripts idx ltac:(lia)) as [line Hline].
    destruct (IH (S idx) ltac:(lia)) as (tail & Htail & Hlen' & Hall).
    rewrite Hline, Htail. cbn. eexists. split_and!; [done | cbn; lia |].
    intros [|i] s Hs; cbn in Hs.
    + inversion Hs; subst s; clear Hs. cbn. rewrite Nat.add_0_r.
      split_and!; [done | done | done | done |]. by exists p, line.
    + destruct (Hall i s Hs) as (H1 & H2 & H3 & H4 & p' & l' & Hp' & Hl' & H5).
      replace (idx + S i) with (S idx + i) by lia.
      split_and!; [done | lia | done | done |]. by exists p', l'.
Qed.

Lemma eqb_empty_false (s : string) : s ≠ "" → String.eqb s "" = false.
Proof. intros H. by apply String.eqb_neq. Qed.

(** Past the two checks on the inputs, the handler is the [try] block. *)
Lemma initializeProject_checked (st : AppState) (file : AudioFile) :
  trim (promptsInput st) ≠ "" → trim (scriptInput st) ≠ "" →
  audioFile st = Some file → apiKey st ≠ "" →
  initializeProject st
  = let st' := setIsGenerating true (setError None st) in
    let prompts := parseLines (promptsInput st) in
    let scripts := parseLines (scriptInput st) in
    if negb (length prompts =? length scripts)
    then failWith (mismatchMessage (length prompts) (length scripts)) st'
    else
      match file with
      | Rejects message => failWith message st'
      | Decodes d =>
          match initialScenes prompts scripts d with
          | None => failWith undefinedTrimMessage st'
          | Some initialScenes =>
              setIsGenerating false
                (setProject
                   (Some (startVisuals
                            {| scenes := initialScenes; duration := d |}))
                   st')
          end
      end.
Proof.
  intros Hp Hs Hf Hk. unfold initializeProject.
  rewrite (eqb_empty_false _ Hp), (eqb_empty_false _ Hs),
    (eqb_empty_false _ Hk), Hf.
  cbn [orb]. rewrite bool_decide_eq_false_2 by done.
  cbn [setIsGenerating setError promptsInput scriptInput audioFile].
  rewrite Hf. reflexivity.
Qed.

(** Starting the generation marks scene 0 and nothing else. *)
Lemma startVisuals_lookup (newProject : ProjectData) (i : nat) :
  scenes (startVisuals newProject) !! i
  = (λ s, if i =? 0 then with_status GeneratingImage s else s)
      <$> scenes newProject !! i.
Proof.
  unfold startVisuals. cbn [scenes with_scenes].
  destruct i as [|i].
  - by rewrite list_lookup_alter_eq.
  - rewrite list_lookup_alter_ne by done. cbn [Nat.eqb].
    by destruct (scenes newProject !! S i).
Qed.

Lemma startVisuals_length (newProject : ProjectData) :
  length (scenes (startVisuals newProject)) = length (scenes newProject).
Proof. unfold startVisuals. cbn. apply length_alter. Qed.

End Create.





(** ** Visual generation *)

Section Generate.

Import App.

Variable generateSceneImage : nat → string → option string.
Variable currentProject : ProjectData.

Let scs := scenes currentProject.

Lemma generated_upto_lookup (k i : nat) :
  generated_upto generateSceneImage k scs !! i
  = (λ s, if i <? k then generated generateSceneImage i s else s) <$> scs !! i.
Proof. unfold generated_upto. apply list_lookup_imap. Qed.

Lemma generated_upto_length (k : nat) :
  length (generated_upto generateSceneImage k scs) = length scs.
Proof. unfold generated_upto. apply length_imap. Qed.

Lemma generated_upto_0 : generated_upto generateSceneImage 0 scs = scs.
Proof.
  apply list_eq. intros i. rewrite generated_upto_lookup.
  by destruct (scs !! i).
Qed.

Lemma generated_upto_all :
  generated_upto generateSceneImage (length scs) scs
  = imap (generated generateSceneImage) scs.
Proof.
  apply imap_ext. intros i s Hs. apply lookup_lt_Some in Hs.
  by rewrite (proj2 (Nat.ltb_lt _ _) Hs).
Qed.

(** Writing the outcome of turn [k] over the scenes of turn [k]. *)
Lemma generated_upto_S (k : nat) (s : Scene) :
  scs !! k = Some s →
  <[k := generated generateSceneImage k s]>
    (generated_upto generateSceneImage k scs)
  = generated_upto generateSceneImage (S k) scs.
Proof.
  intros Hs. apply list_eq. intros i.
  destruct (decide (i = k)) as [-> | Hne].
  - rewrite list_lookup_insert_eq
      by (rewrite generated_upto_length; by eapply lookup_lt_Some).
    rewrite generated_upto_lookup, Hs. cbn -[Nat.ltb].
    by rewrite (proj2 (Nat.ltb_lt k (S k))) by lia.
  - rewrite list_lookup_insert_ne by done.
    rewrite !generated_upto_lookup. destruct (scs !! i) as [y|]; [| done].
    cbn -[Nat.ltb]. f_equal.
    destruct (i <? k) eqn:E1, (i <? S k) eqn:E2; try done.
    + apply Nat.ltb_lt in E1. apply Nat.ltb_ge in E2. lia.
    + apply Nat.ltb_ge in E1. apply Nat.ltb_lt in E2. lia.
Qed.

Let after_turns := App.after_turns generateSceneImage currentProject.

(** One turn, on a scene that exists: neither updater throws, whatever
    the outcome of the call. *)
Lemma generateVisuals_step_turn (k : nat) :
  k < length scs →
  generateVisuals_step scs generateSceneImage (after_turns k) k
  = Some (after_turns (S k)).
Proof.
  intros Hk. destruct (lookup_lt_is_Some_2 scs k Hk) as [s Hs].
  assert (Hcur : generated_upto generateSceneImage k scs !! k = Some s).
  { rewrite generated_upto_lookup, Hs. cbn -[Nat.ltb].
    by rewrite Nat.ltb_irrefl. }
  assert (Hlen : k < length (generated_upto generateSceneImage k scs))
    by by rewrite generated_upto_length.
  unfold generateVisuals_step, after_turns, App.after_turns, updateScene.
  fold scs.
  cbn [genProject genCalls scenes with_scenes]. rewrite Hcur. cbn.
  rewrite Hs. cbn. rewrite (take_S_r _ _ _ Hs), fmap_app. cbn [fmap list_fmap].
  rewrite <- (generated_upto_S k s Hs). unfold generated.
  destruct (generateSceneImage k (prompt s)) as [url|]; cbn;
    rewrite list_lookup_insert_eq by done; cbn;
    by rewrite list_insert_insert_eq.
Qed.

Lemma generateVisuals_loop_turns (k : nat) :
  k ≤ length scs →
  generateVisuals_loop scs generateSceneImage (after_turns 0) (seq 0 k)
  = Some (after_turns k).
Proof.
  unfold generateVisuals_loop. induction k as [|k IH]; intros Hk; [done |].
  rewrite seq_S, foldl_app, IH by lia. cbn.
  apply generateVisuals_step_turn. lia.
Qed.

Lemma after_turns_0 :
  after_turns 0 = {| genProject := Some currentProject; genCalls := [] |}.
Proof.
  unfold after_turns, App.after_turns. fold scs.
  rewrite generated_upto_0. subst scs.
  by destruct currentProject.
Qed.

Lemma generateVisuals_runs :
  generateVisuals currentProject generateSceneImage (Some currentProject)
  = Some {| genProject :=
              Some (with_scenes (imap (generated generateSceneImage) scs)
                      currentProject);
            genCalls := prompt <$> scs |}.
Proof.
  unfold generateVisuals. rewrite <- after_turns_0. fold scs.
  rewrite generateVisuals_loop_turns by done.
  unfold after_turns, App.after_turns. fold scs.
  by rewrite generated_upto_all, take_ge.
Qed.

End Generate.

(** Claim C9.  Whatever the outcome of each scene's generation call, the
    sequential generation runs to its end: every scene's prompt is sent
    once, in array order; a scene whose call succeeds ends [ready] with
    its [imageUrl] set, a scene whose call fails ends [error]; and nothing
    else changes, in that scene or in any other. *)
Theorem generateVisuals_isolates_failures (currentProject : ProjectData)
    (generateSceneImage : nat → string → option string) :
  ∃ g final,
    App.generateVisuals currentProject generateSceneImage (Some currentProject)
    = Some g
    ∧ App.genProject g = Some final
    ∧ App.genCalls g = prompt <$> scenes currentProject
    ∧ duration final = duration currentProject
    ∧ length (scenes final) = length (scenes currentProject)
    ∧ ∀ i s, scenes currentProject !! i = Some s →
        ∃ s', scenes final !! i = Some s'
              ∧ id s' = id s ∧ prompt s' = prompt s ∧ script s' = script s
              ∧ startTime s' = startTime s
              ∧ match generateSceneImage i (prompt s) with
                | Some url => status s' = Ready ∧ imageUrl s' = Some url
                | None => status s' = Error ∧ imageUrl s' = imageUrl s
                end.
Proof.
  eexists _, _. split_and!.
  - apply generateVisuals_runs.
  - reflexivity.
  - reflexivity.
  - reflexivity.
  - cbn. apply length_imap.
  - intros i s Hs. exists (App.generated generateSceneImage i s). split.
    + cbn. by rewrite list_lookup_imap, Hs.
    + unfold App.generated.
      by destruct (generateSceneImage i (prompt s)).
Qed.

(** Three scenes, the call for the second one failing. *)
Example generateVisuals_partial_success :
  let project := {| scenes := scenes_at [0; 10; 20]%Q; duration := 30 |} in
  (λ g, status <$> scenes (default project (App.genProject g)))
    <$> App.generateVisuals project
          (λ i _, if i =? 1 then None else Some "data:image/png;base64,AA")
          (Some project)
  = Some [Ready; Error; Ready].
Proof. reflexivity. Qed.


(** ** The offline renderer's frame *)

Section Renderer.

Import VideoRecorder.

(** Case analysis on the [Qmin] and [Qmax] of [clamp r 0 1]. *)
Ltac clamp_cases r :=
  let H1 := fresh in let H2 := fresh in
  let Hm := fresh in let HM := fresh in
  destruct (Q.min_spec 1 r) as [[H1 Hm] | [H1 Hm]];
  destruct (Q.max_spec 0 (Qmin 1 r)) as [[H2 HM] | [H2 HM]];
  revert H1 Hm H2 HM;
  generalize (Qmax 0 (Qmin 1 r)), (Qmin 1 r); intros; lra.

Lemma clamp_bounds (r : Q) : (0 <= clamp r 0 1 <= 1)%Q.
Proof.
  unfold clamp.
  clamp_cases r.
Qed.

Lemma clamp_mono (r r' : Q) : (r <= r')%Q → (clamp r 0 1 <= clamp r' 0 1)%Q.
Proof.
  intros H. unfold clamp. by apply Q.max_le_compat_l, Q.min_le_compat_l.
Qed.

Lemma clamp_above (r : Q) : (1 <= r)%Q → (clamp r 0 1 == 1)%Q.
Proof.
  intros H. unfold clamp.
  clamp_cases r.
Qed.

(** [Math.max(0, Math.min(1, r))] on a finite [r] is [clamp(r, 0, 1)]. *)
Lemma clamped_Fin (r : Q) :
  ∃ q, JS.Math_max (JS.Fin 0) (JS.Math_min (JS.Fin 1) (JS.Fin r)) = JS.Fin q
       ∧ (q == clamp r 0 1)%Q.
Proof.
  cbn.
  destruct (Qle_bool 1 r) eqn:E1; cbn.
  - apply Qle_bool_iff in E1. exists 1%Q. split; [done |].
    symmetry. by apply clamp_above.
  - assert (Hr : (r < 1)%Q).
    { apply Qnot_le_lt. intros H. apply Qle_bool_iff in H. congruence. }
    destruct (Qle_bool 0 r) eqn:E2.
    + apply Qle_bool_iff in E2. exists r. split; [done |].
      unfold clamp. clamp_cases r.
    + assert (Hr0 : (r < 0)%Q).
      { apply Qnot_le_lt. intros H. apply Qle_bool_iff in H. congruence. }
      exists 0%Q. split; [done |].
      unfold clamp. clamp_cases r.
Qed.

(** A scene of non-zero length: the quotient is finite. *)
Lemma sceneProgress_regular (t : Q) (scene : Scene) (e : Q) :
  ¬ (e == startTime scene)%Q →
  ∃ q, sceneProgress t scene e = JS.Fin q
       ∧ (q == clamp ((t - startTime scene) / (e - startTime scene)) 0 1)%Q.
Proof.
  intros Hne. unfold sceneProgress, JS.div.
  destruct (Qeq_bool (e - startTime scene) 0) eqn:E.
  - apply Qeq_bool_iff in E. exfalso. apply Hne. lra.
  - apply clamped_Fin.
Qed.

(** A scene of zero length, before it starts: the quotient is
    [-Infinity], which the clamp takes to 0. *)
Lemma sceneProgress_zero_length_before (t : Q) (scene : Scene) (e : Q) :
  (e == startTime scene)%Q → (t < startTime scene)%Q →
  sceneProgress t scene e = JS.Fin 0.
Proof.
  intros He Ht. unfold sceneProgress, JS.div.
  assert (E : Qeq_bool (e - startTime scene) 0 = true)
    by (apply Qeq_bool_iff; lra).
  rewrite E.
  assert (E1 : JS.gt (t - startTime scene) 0 = false).
  { destruct (JS.gt _ _) eqn:G; [| done]. apply gt_true in G. lra. }
  assert (E2 : JS.gt 0 (t - startTime scene) = true) by (apply gt_true; lra).
  by rewrite E1, E2.
Qed.

Lemma nextStartTime_spec (project : ProjectData) (i : nat) (e : Q) :
  nextStartTime project i = Some e →
  (∃ next, scenes project !! (i + 1) = Some next ∧ e = startTime next)
  ∨ (scenes project !! (i + 1) = None ∧ e = duration project).
Proof.
  unfold nextStartTime.
  destruct (Z.of_nat i <? Z.of_nat (length (scenes project)) - 1)%Z eqn:E.
  - intros (next & Hnext & ->)%fmap_Some. left. by exists next.
  - intros [= <-]. right. split; [| done].
    apply lookup_ge_None_2. apply Z.ltb_ge in E. lia.
Qed.

Lemma drawFrame_Drawn (project : ProjectData) (imageAssets : gmap nat string)
    (t : Q) (f : Frame) :
  drawFrame project imageAssets t = Drawn f →
  (t < duration project)%Q
  ∧ frameIndex f = activeSceneIndex project t
  ∧ ∃ scene e,
      scenes project !! frameIndex f = Some scene
      ∧ nextStartTime project (frameIndex f) = Some e
      ∧ frameProgress f = sceneProgress t scene e
      ∧ frameScale f
        = (λ _, scale (frameIndex f) (frameProgress f))
            <$> imageAssets !! id scene.
Proof.
  unfold drawFrame. destruct (JS.ge t (duration project)) eqn:G; [done |].
  destruct (scenes project !! activeSceneIndex project t) as [scene|] eqn:Hs;
    [| done].
  destruct (nextStartTime project (activeSceneIndex project t)) as [e|] eqn:He;
    [| done].
  intros [= <-]. cbn. split_and!.
  - apply Qnot_le_lt. intros H. apply ge_true in H. congruence.
  - done.
  - exists scene, e. split_and!; [done | done | done |].
    by destruct (imageAssets !! id scene).
Qed.

(** In a drawn frame the active scene has started and the next boundary is
    ahead, or it is scene 0 standing in before any scene has started. *)
Lemma active_window (project : ProjectData) (t : Q) (scene : Scene) (e : Q) :
  (t < duration project)%Q →
  scenes project !! activeSceneIndex project t = Some scene →
  nextStartTime project (activeSceneIndex project t) = Some e →
  ((startTime scene <= t)%Q ∧ (t < e)%Q)
  ∨ ((t < startTime scene)%Q ∧ (t < e)%Q ∧ activeSceneIndex project t = 0).
Proof.
  intros Hd Hs He. rewrite renderer_index_is_player_index in *.
  pose proof (activeSceneIndex_last_qualifying t (scenes project)) as Hlast.
  set (i := Player.activeSceneIndex (scenes project) t) in *. clearbody i.
  assert (Hnext : (∀ j, qualifies (scenes project) t j → j ≤ i) → (t < e)%Q).
  { intros Hmax.
    destruct (nextStartTime_spec _ _ _ He) as [(next & Hn & ->) | [_ ->]];
      [| done].
    apply Qnot_le_lt. intros Hle.
    assert (Hq : qualifies (scenes project) t (i + 1)) by by exists next.
    specialize (Hmax _ Hq). lia. }
  destruct Hlast as [[(s & Hs' & Hle) Hmax] | [Hnone ->]].
  - left. rewrite Hs in Hs'. inversion Hs'; subst s. split; [done | auto].
  - right. split_and!; [| | done].
    + apply Qnot_le_lt. intros Hle. apply (Hnone 0). by exists scene.
    + apply Hnext. intros j Hj. by destruct (Hnone j).
Qed.

(** The progress of a drawn frame, by the sign of the scene's length. *)
Lemma drawn_progress (project : ProjectData) (t : Q) (scene : Scene) (e : Q) :
  (t < duration project)%Q →
  scenes project !! activeSceneIndex project t = Some scene →
  nextStartTime project (activeSceneIndex project t) = Some e →
  ∃ q, sceneProgress t scene e = JS.Fin q
       ∧ (¬ (e == startTime scene)%Q →
          (q == clamp ((t - startTime scene) / (e - startTime scene)) 0 1)%Q)
       ∧ ((e == startTime scene)%Q → (q == 0)%Q)
       ∧ ((e < startTime scene)%Q → (q == 1)%Q).
Proof.
  intros Hd Hs He.
  destruct (active_window _ _ _ _ Hd Hs He) as [[H1 H2] | (H1 & H2 & _)].
  - destruct (sceneProgress_regular t scene e) as (q & Hq & Hc); [lra |].
    exists q. split_and!; [done | done | lra | lra].
  - destruct (Qeq_dec e (startTime scene)) as [Heq | Hne].
    + exists 0%Q. split_and!; [| done | done | lra].
      by apply sceneProgress_zero_length_before.
    + destruct (sceneProgress_regular t scene e Hne) as (q & Hq & Hc).
      exists q. split_and!; [done | done | done |].
      intros Hlt. apply (Qeq_trans _ _ _ Hc), clamp_above.
      assert (Hflip : ((t - startTime scene) / (e - startTime scene)
                       == (startTime scene - t) / (startTime scene - e))%Q)
        by (field; lra).
      assert (Hone : (1 <= (startTime scene - t) / (startTime scene - e))%Q)
        by (apply Qle_shift_div_l; lra).
      revert Hflip Hone.
      generalize ((t - startTime scene) / (e - startTime scene))%Q,
        ((startTime scene - t) / (startTime scene - e))%Q.
      intros; lra.
Qed.

End Renderer.

Lemma isEven_even (i : nat) : (i mod 2 =? 0) = Nat.even i.
Proof.
  destruct (Nat.even i) eqn:E.
  - apply Nat.even_spec in E as [m ->].
    by rewrite Nat.mul_comm, Nat.Div0.mod_mul.
  - apply Nat.eqb_neq. intros H.
    apply Nat.Div0.mod_divides in H as [m ->].
    rewrite Nat.even_even in E. discriminate.
Qed.

(** Claim C3 as stated fails on a scene of zero length.  With start times
    [5; 5] and duration 10, the frame at time 2 shows scene 0, whose
    window ends where it starts; the quotient is [-3 / 0 = -Infinity] and
    the clamped progress is 0, not 1. *)
Lemma sceneProgress_zero_length_counterexample :
  let project := {| scenes := scenes_at [5; 5]%Q; duration := 10 |} in
  ∃ f scene e,
    VideoRecorder.drawFrame project ∅ 2 = VideoRecorder.Drawn f
    ∧ scenes project !! VideoRecorder.frameIndex f = Some scene
    ∧ VideoRecorder.nextStartTime project (VideoRecorder.frameIndex f) = Some e
    ∧ (e == startTime scene)%Q
    ∧ VideoRecorder.frameProgress f = JS.Fin 0
    ∧ ¬ JS.same (VideoRecorder.frameProgress f) (JS.Fin 1).
Proof.
  cbv zeta. eexists _, (scene_at 0 5), 5%Q.
  split_and!; [reflexivity | reflexivity | reflexivity | reflexivity
              | reflexivity |].
  cbn. intros H. discriminate.
Qed.

(** Such a project is one start-time edit away from an evenly spaced
    one. *)
Example zero_length_scene_by_edit :
  App.projectStartTimes
    (App.handleTimeChange 1 5 (App.studio (scenes_at [0; 5]%Q) 10 2))
  = [5; 5]%Q.
Proof. reflexivity. Qed.

(** Outside the frames the renderer draws, the same expression is not
    even a number: at the start of a scene of zero length it is [0 / 0]. *)
Example sceneProgress_zero_length_at_start :
  VideoRecorder.sceneProgress 5 (scene_at 0 5) 5 = JS.NaN
  ∧ VideoRecorder.sceneProgress 6 (scene_at 0 5) 5 = JS.Fin 1.
Proof. split; reflexivity. Qed.

(** Claim C3, amended.  In every frame the renderer draws, the progress of
    the active scene is [clamp((time - start)/(end - start), 0, 1)] when
    [end] differs from [start], where [end] is the next scene's start time
    by array order if there is a next scene and the total duration
    otherwise; it lies in [0, 1]; it does not decrease with time while
    the same scene stays active; and when the scene's window has zero
    length ([end == start]) it is exactly 0. *)
Theorem sceneProgress_of_drawn_frame (project : ProjectData)
    (imageAssets : gmap nat string) (t : Q) (f : VideoRecorder.Frame) :
  VideoRecorder.drawFrame project imageAssets t = VideoRecorder.Drawn f →
  ∃ scene e q,
    VideoRecorder.frameIndex f = VideoRecorder.activeSceneIndex project t
    ∧ scenes project !! VideoRecorder.frameIndex f = Some scene
    ∧ ((∃ next, scenes project !! (VideoRecorder.frameIndex f + 1) = Some next
                ∧ e = startTime next)
       ∨ (scenes project !! (VideoRecorder.frameIndex f + 1) = None
          ∧ e = duration project))
    ∧ VideoRecorder.frameProgress f = JS.Fin q
    ∧ (0 <= q <= 1)%Q
    ∧ (¬ (e == startTime scene)%Q →
       (q == clamp ((t - startTime scene) / (e - startTime scene)) 0 1)%Q)
    ∧ ((e == startTime scene)%Q → (q == 0)%Q)
    ∧ ∀ t' f',
        (t <= t')%Q →
        VideoRecorder.drawFrame project imageAssets t' = VideoRecorder.Drawn f' →
        VideoRecorder.frameIndex f' = VideoRecorder.frameIndex f →
        ∃ q', VideoRecorder.frameProgress f' = JS.Fin q' ∧ (q <= q')%Q.
Proof.
  intros (Hd & Hi & scene & e & Hs & He & Hp & _)%drawFrame_Drawn.
  pose proof Hs as Hs0. pose proof He as He0. rewrite Hi in Hs0, He0.
  destruct (drawn_progress project t scene e Hd Hs0 He0)
    as (q & Hq & Hreg & Hzero & Hneg).
  exists scene, e, q.
  split; [done |]. split; [done |].
  split; [by apply nextStartTime_spec |].
  split; [congruence |].
  split; [| split; [done |]; split; [done |]].
  - destruct (Qeq_dec e (startTime scene)) as [Heq | Hne].
    + specialize (Hzero Heq). lra.
    + specialize (Hreg Hne).
      pose proof (clamp_bounds
                    ((t - startTime scene) / (e - startTime scene))) as Hb.
      revert Hreg Hb. generalize (clamp
        ((t - startTime scene) / (e - startTime scene)) 0 1). intros; lra.
  - intros t' f' Htt'
      (Hd' & Hi' & scene' & e' & Hs' & He' & Hp' & _)%drawFrame_Drawn Hsame.
    rewrite Hsame in Hs', He'.
    assert (scene' = scene) as -> by congruence.
    assert (e' = e) as -> by congruence.
    pose proof Hs as Hs1. pose proof He as He1.
    rewrite <- Hsame, Hi' in Hs1, He1.
    destruct (drawn_progress project t' scene e Hd' Hs1 He1)
      as (q' & Hq' & Hreg' & Hzero' & Hneg').
    exists q'. split; [congruence |].
    destruct (Qeq_dec e (startTime scene)) as [Heq | Hne].
    { specialize (Hzero Heq). specialize (Hzero' Heq). lra. }
    destruct (Qlt_le_dec e (startTime scene)) as [Hlt | Hge].
    { specialize (Hneg Hlt). specialize (Hneg' Hlt). lra. }
    specialize (Hreg Hne). specialize (Hreg' Hne).
    assert (Hmono :
      (clamp ((t - startTime scene) / (e - startTime scene)) 0 1
       <= clamp ((t' - startTime scene) / (e - startTime scene)) 0 1)%Q).
    { apply clamp_mono. unfold Qdiv. apply Qmult_le_compat_r; [lra |].
      apply Qinv_le_0_compat. lra. }
    revert Hreg Hreg' Hmono.
    generalize (clamp ((t - startTime scene) / (e - startTime scene)) 0 1),
      (clamp ((t' - startTime scene) / (e - startTime scene)) 0 1).
    intros; lra.
Qed.

Lemma sceneProgress_of_drawn_frame_witness :
  ∃ f q,
    VideoRecorder.drawFrame
      {| scenes := scenes_at [0; 10]%Q; duration := 20 |} ∅ 5
    = VideoRecorder.Drawn f
    ∧ VideoRecorder.frameProgress f = JS.Fin q ∧ (0 <= q <= 1)%Q.
Proof.
  eexists.
  edestruct (sceneProgress_of_drawn_frame
               {| scenes := scenes_at [0; 10]%Q; duration := 20 |} ∅ 5)
    as (scene & e & q & _ & _ & _ & Hq & Hb & _); [reflexivity |].
  exists q. split; [reflexivity |]. split; [exact Hq | exact Hb].
Defined.

(** Claim C7.  In a frame drawn with an image, the zoom scale is
    [1 + 0.25 * p] when the active index is even and [1.25 - 0.25 * p] when
    it is odd, [p] being the scene progress; it depends on the index
    through its parity only; at [p = 0.5] it is 1.125 for both parities,
    and at [p = 0.2] it is 1.05 for an even and 1.20 for an odd index. *)
Theorem kenBurns_scale_by_parity (project : ProjectData)
    (imageAssets : gmap nat string) (t : Q) (f : VideoRecorder.Frame)
    (sc : JS.num) :
  VideoRecorder.drawFrame project imageAssets t = VideoRecorder.Drawn f →
  VideoRecorder.frameScale f = Some sc →
  (∃ p, VideoRecorder.frameProgress f = JS.Fin p
        ∧ JS.same sc
            (JS.Fin (if Nat.even (VideoRecorder.frameIndex f)
                     then 1 + 0.25 * p else 1.25 - 0.25 * p)))
  ∧ (∀ i j p, i mod 2 = j mod 2 →
       VideoRecorder.scale i p = VideoRecorder.scale j p)
  ∧ JS.same (VideoRecorder.scale 0 (JS.Fin 0.5)) (JS.Fin 1.125)
  ∧ JS.same (VideoRecorder.scale 1 (JS.Fin 0.5)) (JS.Fin 1.125)
  ∧ JS.same (VideoRecorder.scale 0 (JS.Fin 0.2)) (JS.Fin 1.05)
  ∧ JS.same (VideoRecorder.scale 1 (JS.Fin 0.2)) (JS.Fin 1.20).
Proof.
  intros (Hd & Hi & scene & e & Hs & He & Hp & Hsc)%drawFrame_Drawn Hscale.
  split; [| split; [| by vm_compute]].
  - pose proof Hs as Hs0. pose proof He as He0. rewrite Hi in Hs0, He0.
    destruct (drawn_progress project t scene e Hd Hs0 He0) as (p & Hq & _).
    exists p. split; [congruence |].
    rewrite Hsc in Hscale. apply fmap_Some in Hscale as (img & _ & ->).
    rewrite Hp, Hq. unfold VideoRecorder.scale. rewrite isEven_even.
    destruct (Nat.even (VideoRecorder.frameIndex f)); cbn; lra.
  - intros i j p Hij. unfold VideoRecorder.scale. by rewrite Hij.
Qed.

Lemma kenBurns_scale_by_parity_witness :
  ∃ f sc p,
    VideoRecorder.drawFrame
      {| scenes := scenes_at [0; 10]%Q; duration := 20 |}
      {[ 1 := "a"; 2 := "b" ]} 12
    = VideoRecorder.Drawn f
    ∧ VideoRecorder.frameScale f = Some sc
    ∧ VideoRecorder.frameProgress f = JS.Fin p
    ∧ JS.same sc (JS.Fin (1.25 - 0.25 * p)).
Proof.
  eexists _, _.
  edestruct (kenBurns_scale_by_parity
               {| scenes := scenes_at [0; 10]%Q; duration := 20 |}
               {[ 1 := "a"; 2 := "b" ]} 12)
    as [(p & Hp & Hsame) _]; [reflexivity | reflexivity |].
  exists p. split; [reflexivity |]. split; [reflexivity |].
  split; [exact Hp | exact Hsame].
Defined.

(** The four frames of the export scenario: scenes at 0 and 10 in an
    audio of 20 seconds, sampled at progress 0.5 and 0.2 of each scene. *)
Example kenBurns_export_scenario :
  let project := {| scenes := scenes_at [0; 10]%Q; duration := 20 |} in
  let frame t := VideoRecorder.drawFrame project {[ 1 := "a"; 2 := "b" ]} t in
  let scale_is t (x : Q) :=
    match frame t with
    | VideoRecorder.Drawn f =>
        match VideoRecorder.frameScale f with
        | Some sc => JS.same sc (JS.Fin x)
        | None => False
        end
    | _ => False
    end in
  scale_is 5%Q 1.125%Q ∧ scale_is 15%Q 1.125%Q
  ∧ scale_is 2%Q 1.05%Q ∧ scale_is 12%Q 1.20%Q.
Proof. by vm_compute. Qed.


(** ** Lines and words *)

Section Strings.

Import App.

Lemma split_not_nil (sep : ascii) (s : string) : split sep s ≠ [].
Proof.
  destruct s as [|c rest]; cbn; [done |].
  destruct (Ascii.eqb c sep); [done |]. by destruct (split sep rest).
Qed.

(** Joining what [split] gives returns the string. *)
Lemma join_split (sep : ascii) (s : string) :
  Text.join (String sep EmptyString) (split sep s) = s.
Proof.
  induction s as [|c rest IH]; [done |].
  cbn [split]. pose proof (split_not_nil sep rest) as Hne.
  destruct (split sep rest) as [|w ws]; [done |].
  destruct (Ascii.eqb c sep) eqn:E.
  - apply Ascii.eqb_eq in E as ->.
    change (Text.join (String sep "") ("" :: w :: ws))
      with (String sep (Text.join (String sep "") (w :: ws))).
    by rewrite IH.
  - rewrite <- IH. by destruct ws.
Qed.

Lemma split_without_sep (sep : ascii) (x : string) :
  Text.has_char sep x = false → split sep x = [x].
Proof.
  unfold Text.has_char, Text.chars.
  induction x as [|c x IH]; [done |]. cbn. intros H.
  apply orb_false_iff in H as [Hc Hx].
  rewrite Ascii.eqb_sym, Hc. by rewrite (IH Hx).
Qed.

Lemma split_app_sep (sep : ascii) (x rest : string) :
  Text.has_char sep x = false →
  split sep (x +:+ String sep rest) = x :: split sep rest.
Proof.
  unfold Text.has_char, Text.chars.
  induction x as [|c x IH]; cbn [list_ascii_of_string existsb].
  - intros _. change (EmptyString +:+ String sep rest) with (String sep rest).
    cbn [split]. by rewrite Ascii.eqb_refl.
  - intros H. apply orb_false_iff in H as [Hc Hx].
    change (String c x +:+ String sep rest)
      with (String c (x +:+ String sep rest)).
    cbn [split]. rewrite Ascii.eqb_sym, Hc. by rewrite (IH Hx).
Qed.

(** Splitting what [join] gives returns the lines, when there is one and
    none holds the separator. *)
Lemma split_join (sep : ascii) (lines : list string) :
  lines ≠ [] → Forall (λ x, Text.has_char sep x = false) lines →
  split sep (Text.join (String sep EmptyString) lines) = lines.
Proof.
  induction lines as [|x rest IH]; [done |]. intros _ Hall.
  apply Forall_cons in Hall as [Hx Hrest].
  destruct rest as [|y rest].
  - cbn. by apply split_without_sep.
  - change (Text.join (String sep "") (x :: y :: rest))
      with (x +:+ String sep (Text.join (String sep "") (y :: rest))).
    rewrite split_app_sep by done. by rewrite IH.
Qed.

Lemma trimStart_empty (s : string) :
  trimStart s = EmptyString ↔ Text.all_white_space s = true.
Proof.
  unfold Text.all_white_space, Text.chars.
  induction s as [|c s IH]; cbn; [done |].
  destruct (is_white_space c); cbn; [done |]. split; discriminate.
Qed.

Lemma trimEnd_empty (s : string) :
  trimEnd s = EmptyString ↔ Text.all_white_space s = true.
Proof.
  unfold Text.all_white_space, Text.chars.
  induction s as [|c s IH]; cbn; [done |].
  destruct (trimEnd s) as [|c' r].
  - destruct (is_white_space c); cbn.
    + split; [intros _; by apply IH | done].
    + split; discriminate.
  - split; [discriminate |]. intros H.
    apply andb_true_iff in H as [_ H]. apply IH in H. discriminate.
Qed.

Lemma all_white_space_trimStart (s : string) :
  Text.all_white_space (trimStart s) = Text.all_white_space s.
Proof.
  unfold Text.all_white_space, Text.chars.
  induction s as [|c s IH]; cbn; [done |].
  destruct (is_white_space c) eqn:E; cbn; [done |]. by rewrite E.
Qed.

(** [trim] leaves nothing exactly of the strings made of white space. *)
Lemma trim_empty (s : string) :
  trim s = EmptyString ↔ Text.all_white_space s = true.
Proof.
  unfold trim. by rewrite trimEnd_empty, all_white_space_trimStart.
Qed.

Lemma all_white_space_app (a b : string) :
  Text.all_white_space (a +:+ b)
  = Text.all_white_space a && Text.all_white_space b.
Proof.
  unfold Text.all_white_space, Text.chars.
  induction a as [|c a IH]; [done |].
  change (String c a +:+ b) with (String c (a +:+ b)).
  cbn [list_ascii_of_string forallb]. by rewrite IH, andb_assoc.
Qed.

Lemma all_white_space_join (sep : string) (lines : list string) :
  Text.all_white_space (Text.join sep lines) = true →
  Forall (λ x, Text.all_white_space x = true) lines.
Proof.
  induction lines as [|x rest IH]; [done |].
  destruct rest as [|y rest].
  - cbn. intros H. by repeat constructor.
  - change (Text.join sep (x :: y :: rest))
      with (x +:+ sep +:+ Text.join sep (y :: rest)).
    rewrite !all_white_space_app. intros H.
    apply andb_true_iff in H as [Hx H]. apply andb_true_iff in H as [_ H].
    constructor; [done | by apply IH].
Qed.

Lemma newline_white_space : is_white_space newline = true.
Proof. reflexivity. Qed.

(** The lines of a text: each is non-blank and on one line. *)
Lemma parseLines_lines (input : string) :
  Forall (λ line, Text.all_white_space line = false) (parseLines input).
Proof.
  unfold parseLines. apply Forall_forall. intros line Hin.
  apply list_elem_of_In, filter_In in Hin as [_ Hline].
  apply negb_true_iff, String.eqb_neq in Hline.
  destruct (Text.all_white_space line) eqn:E; [| done].
  by apply trim_empty in E.
Qed.


(** Lines that are non-blank and hold no line break come back as they
    are from the text that joins them. *)
Lemma parseLines_join (lines : list string) :
  Forall (λ x, Text.has_char newline x = false
               ∧ Text.all_white_space x = false) lines →
  parseLines (Text.join (String newline EmptyString) lines) = lines.
Proof.
  intros Hall. unfold parseLines.
  destruct lines as [|x rest]; [done |].
  rewrite split_join; [| done |].
  - apply forallb_filter_id, forallb_forall. intros line Hin.
    rewrite Forall_forall in Hall.
    destruct (Hall line (proj2 (list_elem_of_In _ _) Hin)) as [_ Hb].
    apply negb_true_iff, String.eqb_neq. intros Ht.
    apply trim_empty in Ht. congruence.
  - eapply Forall_impl; [exact Hall |]. by intros line [H _].
Qed.

End Strings.


(** ** Subtitle wrapping *)

Section Wrap.

Import ExportVideo.

Lemma append_empty_r (s : string) : s +:+ EmptyString = s.
Proof.
  induction s as [|c s IH]; [done |].
  change (String c s +:+ "") with (String c (s +:+ "")). by rewrite IH.
Qed.

Lemma append_cons (x : ascii) (a b : string) :
  String x a +:+ b = String x (a +:+ b).
Proof. reflexivity. Qed.

Lemma append_assoc (a b c : string) : (a +:+ b) +:+ c = a +:+ (b +:+ c).
Proof.
  induction a as [|x a IH]; [done |]. by rewrite !append_cons, IH.
Qed.

Lemma join_empty_cons (x : string) (rest : list string) :
  Text.join EmptyString (x :: rest) = x +:+ Text.join EmptyString rest.
Proof. destruct rest; cbn [Text.join]; [by rewrite append_empty_r | done]. Qed.

Lemma join_empty_app (l1 l2 : list string) :
  Text.join EmptyString (l1 ++ l2)
  = Text.join EmptyString l1 +:+ Text.join EmptyString l2.
Proof.
  induction l1 as [|x l1 IH]; [done |].
  rewrite <- app_comm_cons, !join_empty_cons, IH. by rewrite append_assoc.
Qed.

(** Words, each followed by the separator. *)
Lemma join_followed (sep : string) (words : list string) :
  words ≠ [] →
  Text.join EmptyString ((λ word, word +:+ sep) <$> words)
  = Text.join sep words +:+ sep.
Proof.
  induction words as [|x rest IH]; [done |]. intros _.
  rewrite fmap_cons, join_empty_cons.
  destruct rest as [|y rest].
  - cbn. by rewrite append_empty_r.
  - rewrite IH by done.
    change (Text.join sep (x :: y :: rest))
      with (x +:+ sep +:+ Text.join sep (y :: rest)).
    by rewrite !append_assoc.
Qed.

Variable measureText : string → Q.
Variable maxWidth : Q.

(** The loop only moves text from the words to the lines. *)
Lemma wrapWords_join (words : list string) (n : nat) (lines : list string)
    (line : string) :
  Text.join EmptyString (wrapWords measureText maxWidth n lines line words)
  = Text.join EmptyString lines +:+ line
    +:+ Text.join EmptyString ((λ word, word +:+ " ") <$> words).
Proof.
  revert n lines line.
  induction words as [|word rest IH]; intros n lines line.
  - cbn [wrapWords fmap list_fmap Text.join].
    rewrite join_empty_app. cbn [Text.join]. by rewrite append_empty_r.
  - cbn [wrapWords]. rewrite fmap_cons, join_empty_cons.
    destruct (JS.gt _ maxWidth && (0 <? n)); rewrite IH.
    + rewrite join_empty_app. cbn [Text.join]. by rewrite !append_assoc.
    + by rewrite !append_assoc.
Qed.

Let fits_or_single := fits_or_single measureText maxWidth.

Lemma wrapWords_fits (all words : list string) (n : nat)
    (lines : list string) (line : string) :
  Forall (fits_or_single all) lines →
  (0 < n → fits_or_single all line) →
  (n = 0 → line = EmptyString ∧ words ≠ []) →
  (∀ word, word ∈ words → word ∈ all) →
  Forall (fits_or_single all)
    (wrapWords measureText maxWidth n lines line words).
Proof.
  revert n lines line.
  induction words as [|word rest IH]; intros n lines line Hlines Hline H0 Hall.
  - cbn. apply Forall_app. split; [done |]. constructor; [| done].
    apply Hline. destruct n; [by destruct H0 as [_ ?] | lia].
  - cbn [wrapWords].
    assert (Hword : word ∈ all) by (apply Hall; left).
    assert (Hrest : ∀ w, w ∈ rest → w ∈ all) by (intros; apply Hall; by right).
    destruct (JS.gt (measureText (line +:+ word +:+ " ")) maxWidth) eqn:G;
      destruct (0 <? n) eqn:N; cbn [andb].
    + apply IH; [| | lia | done].
      * apply Forall_app. split; [done |]. constructor; [| done].
        apply Hline. by apply Nat.ltb_lt.
      * intros _. right. by exists word.
    + apply IH; [done | | lia | done].
      intros _. apply Nat.ltb_ge in N.
      destruct (H0 ltac:(lia)) as [-> _]. right. by exists word.
    + apply IH; [done | | lia | done].
      intros _. left. apply Qnot_lt_le. intros Hlt.
      apply gt_true in Hlt. congruence.
    + apply IH; [done | | lia | done].
      intros _. left. apply Qnot_lt_le. intros Hlt.
      apply gt_true in Hlt. congruence.
Qed.

End Wrap.

(** Extra X1.  [wrapText] loses nothing: the lines it draws, put end to
    end, are the subtitle followed by one space, whatever the font
    metrics and the width. *)
Theorem wrapText_keeps_text (measureText : string → Q) (text : string)
    (x y maxWidth lineHeight : Q) :
  Text.join EmptyString
    ((λ call, call.1.1)
       <$> ExportVideo.wrapText measureText text x y maxWidth lineHeight)
  = text +:+ " ".
Proof.
  unfold ExportVideo.wrapText.
  rewrite fmap_imap.
  replace (imap _ (ExportVideo.wrapLines measureText text maxWidth))
    with (ExportVideo.wrapLines measureText text maxWidth).
  2:{ apply list_eq. intros k. rewrite list_lookup_imap.
      by destruct (ExportVideo.wrapLines measureText text maxWidth !! k). }
  unfold ExportVideo.wrapLines. rewrite wrapWords_join.
  cbn [Text.join]. change (EmptyString +:+ EmptyString +:+ ?s) with s.
  rewrite join_followed by apply split_not_nil.
  change " " with (String ExportVideo.space EmptyString).
  by rewrite (join_split ExportVideo.space text).
Qed.

(** Extra X2.  Every line [wrapText] draws fits the width, unless it
    holds a single word of the subtitle; line [k] is drawn at
    [(x, y + k * lineHeight)]. *)
Theorem wrapText_lines_fit (measureText : string → Q) (text : string)
    (x y maxWidth lineHeight : Q) (k : nat) (line : string) (x' y' : Q) :
  ExportVideo.wrapText measureText text x y maxWidth lineHeight !! k
  = Some (line, x', y') →
  x' = x
  ∧ y' = (y + inject_Z (Z.of_nat k) * lineHeight)%Q
  ∧ fits_or_single measureText maxWidth
      (App.split ExportVideo.space text) line.
Proof.
  unfold ExportVideo.wrapText. rewrite list_lookup_imap.
  intros (l & Hl & [= <- <- <-])%fmap_Some.
  split; [done |]. split; [done |].
  assert (Hall : Forall (fits_or_single measureText maxWidth
                           (App.split ExportVideo.space text))
                   (ExportVideo.wrapLines measureText text maxWidth)).
  { unfold ExportVideo.wrapLines. apply wrapWords_fits.
    - constructor.
    - lia.
    - intros _. split; [done | apply split_not_nil].
    - done. }
  rewrite Forall_lookup in Hall. by eapply Hall.
Qed.

Lemma wrapText_lines_fit_witness :
  fits_or_single (λ s, inject_Z (Z.of_nat (String.length s))) 10
    (App.split ExportVideo.space "the quick brown fox") "brown fox ".
Proof.
  apply (wrapText_lines_fit
           (λ s, inject_Z (Z.of_nat (String.length s)))
           "the quick brown fox" 960 930 10 (576 # 10) 1
           "brown fox " 960 (930 + inject_Z (Z.of_nat 1) * (576 # 10))%Q).
  reflexivity.
Defined.

(** Extra X3.  Smart auto-fill and project creation agree: when every
    script and prompt of the storyboard is non-blank and on one line, the
    two text boxes parse back to exactly the storyboard's prompts and
    scripts, and creating a project from them gives one scene per
    segment, in order, with the trimmed texts, never a mismatch. *)
Theorem smartFill_feeds_initialize (rawStoryInput : string)
    (generateStoryboard :
       string → string → string + list GeminiService.StoryboardSegment)
    (segments : list GeminiService.StoryboardSegment)
    (st : App.AppState) (d : Q) :
  App.trim rawStoryInput ≠ EmptyString →
  App.apiKey st ≠ EmptyString →
  generateStoryboard rawStoryInput (App.apiKey st) = inr segments →
  Forall (λ seg,
            Text.has_char App.newline (GeminiService.script seg) = false
            ∧ Text.all_white_space (GeminiService.script seg) = false
            ∧ Text.has_char App.newline (GeminiService.prompt seg) = false
            ∧ Text.all_white_space (GeminiService.prompt seg) = false)
    segments →
  let filled := SmartFill.handleSmartGenerate rawStoryInput
                  generateStoryboard st in
  filled.2 = EmptyString
  ∧ App.parseLines (App.promptsInput filled.1)
    = GeminiService.prompt <$> segments
  ∧ App.parseLines (App.scriptInput filled.1)
    = GeminiService.script <$> segments
  ∧ (segments ≠ [] → App.audioFile st = Some (App.Decodes d) →
     ∃ project,
       App.project (App.initializeProject filled.1) = Some project
       ∧ App.error (App.initializeProject filled.1) = None
       ∧ length (scenes project) = length segments
       ∧ ∀ i seg, segments !! i = Some seg →
           ∃ s, scenes project !! i = Some s
                ∧ prompt s = App.trim (GeminiService.prompt seg)
                ∧ script s = App.trim (GeminiService.script seg)).
Proof.
  intros Hraw Hkey Hgen Hall filled.
  assert (Hfilled : filled
    = (SmartFill.setPromptsInput
         (Text.join SmartFill.newlineString (GeminiService.prompt <$> segments))
         (SmartFill.setScriptInput
            (Text.join SmartFill.newlineString
               (GeminiService.script <$> segments))
            (App.setError None st)), EmptyString)).
  { subst filled. unfold SmartFill.handleSmartGenerate.
    rewrite (eqb_empty_false _ Hraw), (eqb_empty_false _ Hkey).
    cbn [App.apiKey App.setError]. by rewrite Hgen. }
  assert (Hprompts : App.parseLines (App.promptsInput filled.1)
                     = GeminiService.prompt <$> segments).
  { rewrite Hfilled. cbn. apply parseLines_join.
    apply Forall_fmap. eapply Forall_impl; [exact Hall |].
    by intros seg (_ & _ & ? & ?). }
  assert (Hscripts : App.parseLines (App.scriptInput filled.1)
                     = GeminiService.script <$> segments).
  { rewrite Hfilled. cbn. apply parseLines_join.
    apply Forall_fmap. eapply Forall_impl; [exact Hall |].
    by intros seg (? & ? & _ & _). }
  split; [by rewrite Hfilled |]. split; [done |]. split; [done |].
  intros Hne Hfile.
  assert (Hblank : ∀ f : GeminiService.StoryboardSegment → string,
            Forall (λ seg, Text.all_white_space (f seg) = false) segments →
            App.trim (Text.join SmartFill.newlineString (f <$> segments))
            ≠ EmptyString).
  { intros f Hf Ht. apply trim_empty, all_white_space_join in Ht.
    destruct segments as [|seg rest]; [done |].
    apply Forall_cons in Hf as [Hseg _]. apply Forall_cons in Ht as [Ht _].
    congruence. }
  rewrite (initializeProject_checked filled.1 (App.Decodes d)).
  2:{ rewrite Hfilled. cbn. apply Hblank.
      eapply Forall_impl; [exact Hall |]. by intros seg (_ & _ & _ & ?). }
  2:{ rewrite Hfilled. cbn. apply Hblank.
      eapply Forall_impl; [exact Hall |]. by intros seg (_ & ? & _ & _). }
  2:{ by rewrite Hfilled. }
  2:{ by rewrite Hfilled. }
  cbv zeta. rewrite Hprompts, Hscripts, !length_fmap, Nat.eqb_refl.
  cbn [negb]. unfold App.initialScenes. rewrite length_fmap.
  destruct (initialScenes_from_spec (GeminiService.prompt <$> segments)
              (GeminiService.script <$> segments) d (length segments) 0)
    as (scs & Hscs & Hlen & Hscene); [rewrite !length_fmap; lia |].
  rewrite Hscs.
  exists (App.startVisuals {| scenes := scs; duration := d |}).
  split; [done |]. split; [done |].
  rewrite length_fmap in Hlen.
  split; [by rewrite startVisuals_length |].
  intros i seg Hseg.
  destruct (lookup_lt_is_Some_2 scs i) as [s Hs].
  { rewrite Hlen. by eapply lookup_lt_Some. }
  rewrite startVisuals_lookup. cbn [scenes]. rewrite Hs.
  eexists. split; [done |].
  replace (prompt (if i =? 0 then with_status GeneratingImage s else s))
    with (prompt s) by by destruct (i =? 0).
  replace (script (if i =? 0 then with_status GeneratingImage s else s))
    with (script s) by by destruct (i =? 0).
  destruct (Hscene i s Hs) as (_ & _ & _ & _ & p & line & Hp & Hline & -> & ->).
  change (0 + i) with i in Hline.
  rewrite list_lookup_fmap, Hseg in Hp, Hline. cbn in Hp, Hline.
  by inversion Hp; inversion Hline.
Qed.

Lemma smartFill_feeds_initialize_witness :
  ∃ project,
    App.project
      (App.initializeProject
         (SmartFill.handleSmartGenerate "A knight. A dragon."
            (λ _ _, inr [GeminiService.mkSegment "A knight." "a knight";
                         GeminiService.mkSegment "A dragon." "a dragon"])
            (App.studio [] 30 0)).1)
    = Some project
    ∧ length (scenes project) = 2.
Proof.
  destruct (smartFill_feeds_initialize "A knight. A dragon."
              (λ _ _, inr [GeminiService.mkSegment "A knight." "a knight";
                           GeminiService.mkSegment "A dragon." "a dragon"])
              [GeminiService.mkSegment "A knight." "a knight";
               GeminiService.mkSegment "A dragon." "a dragon"]
              (App.studio [] 30 0) 30)
    as (_ & _ & _ & H).
  - vm_compute. discriminate.
  - vm_compute. discriminate.
  - reflexivity.
  - repeat constructor.
  - destruct H as (project & Hp & _ & Hlen & _); [done | reflexivity |].
    by exists project.
Defined.


(** ** Creation and the timing handlers together *)

Section Timeline.

Import App.




(** Everything of a scene but its start time. *)
Lemma with_startTime_twice (a b : Q) (s : Scene) :
  with_startTime a (with_startTime b s) = with_startTime a s.
Proof. reflexivity. Qed.



Lemma setProject_twice (p q : option ProjectData) (st : AppState) :
  setProject p (setProject q st) = setProject p st.
Proof. reflexivity. Qed.

(** The scenes each timing handler leaves. *)
Lemma handleTimeChange_scenes (id0 : nat) (t : Q) (st : AppState)
    (project : ProjectData) :
  App.project st = Some project →
  handleTimeChange id0 t st
  = setProject
      (Some (with_scenes
               ((λ s, if id s =? id0 then with_startTime t s else s)
                  <$> scenes project) project)) st.
Proof. intros Hp. unfold handleTimeChange. by rewrite Hp. Qed.

Lemma handleAutoAlign_state (st : AppState) (project : ProjectData) :
  App.project st = Some project →
  handleAutoAlign st
  = setProject
      (Some (with_scenes
               (imap (λ idx s,
                        with_startTime
                          (evenStart (duration project)
                             (length (scenes project)) idx) s)
                  (scenes project)) project)) st.
Proof. intros Hp. unfold handleAutoAlign. by rewrite Hp. Qed.

(** Live sync leaves the state, or writes the position into one scene. *)
Lemma handleRecordSync_cases (st : AppState) (project : ProjectData) :
  App.project st = Some project →
  handleRecordSync st = st
  ∨ ∃ i, handleRecordSync st
         = setProject
             (Some (with_scenes
                      (alter (with_startTime (currentTime st)) i
                         (scenes project)) project)) st.
Proof.
  intros Hp. unfold handleRecordSync. rewrite Hp.
  destruct (nextSceneIndex project (currentTime st)) as [i|]; [| by left].
  destruct (prevSceneTime (scenes project) i) as [prev|]; [| by left].
  destruct (JS.ge (currentTime st) prev); [| by left].
  right. by exists i.
Qed.

Lemma untimed_alter (t : Q) (i : nat) (scs : list Scene) :
  with_startTime 0 <$> alter (with_startTime t) i scs
  = with_startTime 0 <$> scs.
Proof.
  apply list_eq. intros j. rewrite !list_lookup_fmap.
  destruct (decide (j = i)) as [-> | Hne].
  - rewrite list_lookup_alter_eq. by destruct (scs !! i).
  - by rewrite list_lookup_alter_ne.
Qed.

Lemma untimed_edit (id0 : nat) (t : Q) (scs : list Scene) :
  with_startTime 0
    <$> ((λ s, if id s =? id0 then with_startTime t s else s) <$> scs)
  = with_startTime 0 <$> scs.
Proof.
  rewrite <- list_fmap_compose. apply list_fmap_ext.
  intros j s _. cbn. by destruct (id s =? id0).
Qed.

Lemma untimed_align (f : nat → Q) (scs : list Scene) :
  with_startTime 0 <$> imap (λ idx s, with_startTime (f idx) s) scs
  = with_startTime 0 <$> scs.
Proof.
  apply list_eq. intros j. rewrite !list_lookup_fmap, list_lookup_imap.
  by destruct (scs !! j).
Qed.

(** Auto-align depends on the scenes only through everything but their
    start times. *)
Lemma align_untimed (d : Q) (scs scs' : list Scene) :
  with_startTime 0 <$> scs' = with_startTime 0 <$> scs →
  imap (λ idx s, with_startTime (evenStart d (length scs') idx) s) scs'
  = imap (λ idx s, with_startTime (evenStart d (length scs) idx) s) scs.
Proof.
  intros H.
  assert (Hlen : length scs' = length scs).
  { apply (f_equal length) in H. by rewrite !length_fmap in H. }
  rewrite Hlen. apply list_eq. intros j. rewrite !list_lookup_imap.
  apply (f_equal (λ l, l !! j)) in H. rewrite !list_lookup_fmap in H.
  destruct (scs' !! j) as [s'|], (scs !! j) as [s|]; cbn in H |- *;
    try done.
  assert (H' : with_startTime 0 s' = with_startTime 0 s) by congruence.
  f_equal.
  rewrite <- (with_startTime_twice _ 0 s'), <- (with_startTime_twice _ 0 s).
  by rewrite H'.
Qed.

End Timeline.



(** Extra X5.  A creation that ends with an error either stopped at the
    checks on the inputs and the key, and then changed nothing but the
    error message, or it left no project at all and the generating flag
    down. *)
Theorem initializeProject_failure (st : App.AppState) (message : string) :
  App.error (App.initializeProject st) = Some message →
  (App.initializeProject st = App.setError (Some message) st
   ∧ ((message = App.missingInputsMessage
       ∧ (App.trim (App.promptsInput st) = EmptyString
          ∨ App.trim (App.scriptInput st) = EmptyString
          ∨ App.audioFile st = None))
      ∨ (message = App.missingKeyMessage ∧ App.apiKey st = EmptyString)))
  ∨ (App.project (App.initializeProject st) = None
     ∧ App.isGenerating (App.initializeProject st) = false
     ∧ App.apiKey st ≠ EmptyString).
Proof.
  unfold App.initializeProject.
  destruct (String.eqb (App.trim (App.promptsInput st)) "") eqn:Ep.
  { cbn. intros [= <-]. left. split; [done |]. left. split; [done |].
    left. by apply String.eqb_eq. }
  destruct (String.eqb (App.trim (App.scriptInput st)) "") eqn:Es.
  { cbn. intros [= <-]. left. split; [done |]. left. split; [done |].
    right. left. by apply String.eqb_eq. }
  destruct (App.audioFile st) as [file|] eqn:Ef.
  2:{ cbn. intros [= <-]. left. split; [done |]. left. split; [done |].
      by right; right. }
  cbn [orb]. rewrite bool_decide_eq_false_2 by done.
  destruct (String.eqb (App.apiKey st) "") eqn:Ek.
  { cbn. intros [= <-]. left. split; [done |]. right. split; [done |].
    by apply String.eqb_eq. }
  apply String.eqb_neq in Ek.
  cbn [App.setIsGenerating App.setError App.promptsInput App.scriptInput
         App.audioFile].
  rewrite Ef.
  destruct (negb _); [intros _; right; by cbn |].
  destruct file as [d | m]; [| intros _; right; by cbn].
  destruct (App.initialScenes _ _ d); [done | intros _; right; by cbn].
Qed.

Lemma initializeProject_failure_witness :
  App.project
    (App.initializeProject
       {| App.apiKey := "key"; App.promptsInput := "a"; App.scriptInput := "x";
          App.audioFile := Some (App.Rejects "Unable to decode audio data");
          App.project := Some {| scenes := []; duration := 1 |};
          App.isGenerating := false;
          App.currentTime := 0; App.error := None |}) = None.
Proof.
  destruct (initializeProject_failure
              {| App.apiKey := "key"; App.promptsInput := "a";
                 App.scriptInput := "x";
                 App.audioFile := Some (App.Rejects "Unable to decode audio data");
                 App.project := Some {| scenes := []; duration := 1 |};
                 App.isGenerating := false;
                 App.currentTime := 0; App.error := None |}
              "Unable to decode audio data" eq_refl)
    as [[H _] | (H & _)]; [| exact H].
  vm_compute in H. discriminate.
Defined.

(** Extra X6.  The three timing handlers (a start-time edit, auto-align,
    live sync) change nothing but start times: the duration, the number
    and order of the scenes, and every other field of every scene and of
    the state stay as they are. *)
Theorem timing_handlers_keep_scenes (st st' : App.AppState)
    (project : ProjectData) (id0 : nat) (t : Q) :
  App.project st = Some project →
  st' = App.handleTimeChange id0 t st
  ∨ st' = App.handleAutoAlign st
  ∨ st' = App.handleRecordSync st →
  ∃ project',
    st' = App.setProject (Some project') st
    ∧ duration project' = duration project
    ∧ with_startTime 0 <$> scenes project'
      = with_startTime 0 <$> scenes project.
Proof.
  intros Hp [-> | [-> | ->]].
  - rewrite (handleTimeChange_scenes _ _ _ _ Hp). eexists. split; [done |].
    split; [done |]. cbn. apply untimed_edit.
  - rewrite (handleAutoAlign_state _ _ Hp). eexists. split; [done |].
    split; [done |]. cbn. apply untimed_align.
  - destruct (handleRecordSync_cases _ _ Hp) as [-> | [i ->]].
    + exists project. split; [| done]. destruct st. cbn in Hp. by subst.
    + eexists. split; [done |]. split; [done |]. cbn. apply untimed_alter.
Qed.

Lemma timing_handlers_keep_scenes_witness :
  ∃ project',
    App.handleRecordSync (App.studio (scenes_at [0; 5; 10]%Q) 30 7)
    = App.setProject (Some project') (App.studio (scenes_at [0; 5; 10]%Q) 30 7)
    ∧ id <$> scenes project' = [1; 2; 3].
Proof.
  destruct (timing_handlers_keep_scenes
              (App.studio (scenes_at [0; 5; 10]%Q) 30 7)
              (App.handleRecordSync (App.studio (scenes_at [0; 5; 10]%Q) 30 7))
              {| scenes := scenes_at [0; 5; 10]%Q; duration := 30 |} 0 0)
    as (project' & Hst & _ & Hsc); [reflexivity | by right; right |].
  exists project'. split; [done |].
  apply (f_equal (fmap id)) in Hsc. rewrite <- !list_fmap_compose in Hsc.
  exact Hsc.
Defined.

(** Extra X7.  In a project whose scene ids are distinct, a start-time
    edit for the id of scene [i] replaces the start time of scene [i] and
    of no other scene; an id no scene has leaves every scene as it is. *)
Theorem handleTimeChange_one_scene (st : App.AppState) (project : ProjectData)
    (id0 : nat) (t : Q) :
  App.project st = Some project →
  NoDup (id <$> scenes project) →
  (∀ i s, scenes project !! i = Some s → id s = id0 →
     App.project (App.handleTimeChange id0 t st)
     = Some (with_scenes (<[i := with_startTime t s]> (scenes project))
               project))
  ∧ (id0 ∉ id <$> scenes project →
     App.project (App.handleTimeChange id0 t st) = Some project).
Proof.
  intros Hp Hnd. rewrite (handleTimeChange_scenes _ _ _ _ Hp). cbn. split.
  - intros i s Hs Hid. f_equal. f_equal. apply list_eq. intros j.
    rewrite list_lookup_fmap.
    destruct (decide (j = i)) as [-> | Hne].
    + rewrite list_lookup_insert_eq by by eapply lookup_lt_Some.
      rewrite Hs. cbn. by rewrite Hid, Nat.eqb_refl.
    + rewrite list_lookup_insert_ne by done.
      destruct (scenes project !! j) as [s'|] eqn:Hs'; [| done]. cbn.
      destruct (id s' =? id0) eqn:E; [| done].
      apply Nat.eqb_eq in E. exfalso. apply Hne.
      apply (NoDup_lookup _ j i (id s') Hnd);
        rewrite list_lookup_fmap; [by rewrite Hs' | rewrite Hs; cbn; congruence].
  - intros Hnot. f_equal. destruct project as [scs d]. unfold with_scenes.
    cbn in *. f_equal. rewrite <- (list_fmap_id scs) at 2.
    apply list_fmap_ext. intros j s Hs. cbn.
    destruct (id s =? id0) eqn:E; [| done]. apply Nat.eqb_eq in E.
    exfalso. apply Hnot. rewrite <- E. apply list_elem_of_fmap.
    exists s. split; [done |]. by eapply list_elem_of_lookup_2.
Qed.

Lemma handleTimeChange_one_scene_witness :
  App.projectStartTimes
    (App.handleTimeChange 2 7 (App.studio (scenes_at [0; 5; 10]%Q) 30 0))
  = [0; 7; 10]%Q.
Proof.
  destruct (handleTimeChange_one_scene
              (App.studio (scenes_at [0; 5; 10]%Q) 30 0)
              {| scenes := scenes_at [0; 5; 10]%Q; duration := 30 |} 2 7)
    as [H _]; [reflexivity | |].
  - apply (bool_decide_unpack _). by vm_compute.
  - unfold App.projectStartTimes.
    rewrite (H 1 (scene_at 1 5) eq_refl eq_refl). reflexivity.
Defined.

(** Extra X8.  Auto-align forgets every manual timing: after a start-time
    edit, after a live sync, or after another auto-align it gives the
    state it gives without them. *)
Theorem autoAlign_discards_edits (st : App.AppState) (id0 : nat) (t : Q) :
  App.handleAutoAlign (App.handleTimeChange id0 t st) = App.handleAutoAlign st
  ∧ App.handleAutoAlign (App.handleRecordSync st) = App.handleAutoAlign st
  ∧ App.handleAutoAlign (App.handleAutoAlign st) = App.handleAutoAlign st.
Proof.
  destruct (App.project st) as [project|] eqn:Hp.
  2:{ unfold App.handleTimeChange, App.handleRecordSync, App.handleAutoAlign.
      rewrite Hp. by rewrite Hp. }
  assert (Hre : ∀ scs',
            with_startTime 0 <$> scs' = with_startTime 0 <$> scenes project →
            App.handleAutoAlign
              (App.setProject (Some (with_scenes scs' project)) st)
            = App.handleAutoAlign st).
  { intros scs' Hsc. rewrite (handleAutoAlign_state st project Hp).
    unfold App.handleAutoAlign. cbn. rewrite (align_untimed _ _ _ Hsc).
    reflexivity. }
  split_and!.
  - rewrite (handleTimeChange_scenes _ _ _ _ Hp). apply Hre, untimed_edit.
  - destruct (handleRecordSync_cases _ _ Hp) as [-> | [i ->]]; [done |].
    apply Hre, untimed_alter.
  - rewrite (handleAutoAlign_state st project Hp) at 1.
    apply Hre, untimed_align.
Qed.


(** ** The player, the scene list and live sync *)

Section PlayerSync.

Import App.

(** Past the active scene nothing has started. *)
Lemma after_active_not_started (scs : list Scene) (t : Q) (j : nat) (s : Scene) :
  Player.activeSceneIndex scs t < j → scs !! j = Some s →
  (t < startTime s)%Q.
Proof.
  intros Hj Hs. apply Qnot_le_lt. intros Hle.
  assert (Hq : qualifies scs t j) by by exists s.
  destruct (activeSceneIndex_last_qualifying t scs) as [[_ Hmax] | [Hnone _]].
  - specialize (Hmax j Hq). lia.
  - by apply (Hnone j).
Qed.

Lemma nextScene_Some (scs : list Scene) (t : Q) (s : Scene) :
  PlayerClock.nextScene scs t = Some s →
  scs !! (Player.activeSceneIndex scs t + 1) = Some s.
Proof.
  unfold PlayerClock.nextScene.
  by destruct (Z.of_nat _ <? Z.of_nat (length scs) - 1)%Z.
Qed.

Lemma activeSceneIndex_unique (scs : list Scene) (t : Q) (i : nat) (s : Scene) :
  scs !! i = Some s → (startTime s <= t)%Q →
  (∀ j s', i < j → scs !! j = Some s' → (t < startTime s')%Q) →
  Player.activeSceneIndex scs t = i.
Proof.
  intros Hs Hle Hafter.
  assert (Hq : qualifies scs t i) by by exists s.
  destruct (activeSceneIndex_last_qualifying t scs)
    as [[(s' & Hs' & Hle') Hmax] | [Hnone _]].
  - specialize (Hmax i Hq).
    destruct (decide (Player.activeSceneIndex scs t = i)) as [| Hne]; [done |].
    assert (Hlt : i < Player.activeSceneIndex scs t) by lia.
    specialize (Hafter _ _ Hlt Hs'). lra.
  - by destruct (Hnone i).
Qed.

(** Writing the position into the first scene that starts after it keeps
    a non-decreasing timeline non-decreasing. *)
Lemma sync_non_decreasing (project : ProjectData) (t : Q) (i : nat) :
  non_decreasing (scenes project) →
  nextSceneIndex project t = Some i →
  non_decreasing (alter (with_startTime t) i (scenes project)).
Proof.
  intros Hsorted (s & Hs & Hgt & Hbefore)%nextSceneIndex_Some a b sa sb Hab Ha Hb.
  destruct (decide (a = i)) as [-> | Hai];
    destruct (decide (b = i)) as [-> | Hbi].
  - rewrite Ha in Hb. inversion Hb. lra.
  - rewrite list_lookup_alter_eq, Hs in Ha. inversion Ha; subst sa; clear Ha.
    rewrite list_lookup_alter_ne in Hb by done. cbn.
    specialize (Hsorted i b s sb Hab Hs Hb). lra.
  - rewrite list_lookup_alter_eq, Hs in Hb. inversion Hb; subst sb; clear Hb.
    rewrite list_lookup_alter_ne in Ha by done. cbn.
    apply (Hbefore a sa Ha). lia.
  - rewrite list_lookup_alter_ne in Ha, Hb by done.
    by apply (Hsorted a b).
Qed.

End PlayerSync.

(** Extra X9.  On a timeline whose start times never go down, a live sync
    at a position that is not negative keeps them so, and makes the scene
    it moved the active scene at that position. *)
Theorem recordSync_keeps_order (st : App.AppState) (project : ProjectData)
    (i : nat) :
  App.project st = Some project →
  non_decreasing (scenes project) →
  App.nextSceneIndex project (App.currentTime st) = Some i →
  (0 <= App.currentTime st)%Q →
  ∃ project',
    App.project (App.handleRecordSync st) = Some project'
    ∧ non_decreasing (scenes project')
    ∧ Player.activeSceneIndex (scenes project') (App.currentTime st) = i.
Proof.
  intros Hp Hsorted Hn Hpos.
  destruct (prevSceneTime_started _ _ _ Hn) as (prev & Hprev & Hlater & Hfirst).
  assert (Hle : (prev <= App.currentTime st)%Q).
  { destruct i as [|i]; [rewrite Hfirst by done; lra | apply Hlater; lia]. }
  rewrite (handleRecordSync_accept st project i prev Hp Hn Hprev Hle).
  eexists. split; [done |]. cbn. split; [by apply sync_non_decreasing |].
  pose proof Hn as (s & Hs & Hgt & Hbefore)%nextSceneIndex_Some.
  apply (activeSceneIndex_unique _ _ _ (with_startTime (App.currentTime st) s)).
  - by rewrite list_lookup_alter_eq, Hs.
  - cbn. lra.
  - intros j s' Hj Hs'. rewrite list_lookup_alter_ne in Hs' by lia.
    assert (Hij : i ≤ j) by lia.
    specialize (Hsorted i j s s' Hij Hs Hs'). lra.
Qed.

Lemma recordSync_keeps_order_witness :
  ∃ project',
    App.project
      (App.handleRecordSync (App.studio (scenes_at [0; 5; 10]%Q) 30 7))
    = Some project'
    ∧ Player.activeSceneIndex (scenes project') 7 = 2.
Proof.
  destruct (recordSync_keeps_order
              (App.studio (scenes_at [0; 5; 10]%Q) 30 7)
              {| scenes := scenes_at [0; 5; 10]%Q; duration := 30 |} 2)
    as (project' & Hp & _ & Ha).
  - reflexivity.
  - intros [|[|[|a]]] [|[|[|b]]] sa sb Hab Ha Hb; cbn in Ha, Hb;
      inversion Ha; inversion Hb; subst; cbn; (lra || lia).
  - reflexivity.
  - cbn. lra.
  - by exists project'.
Defined.

(** Extra X10.  Whenever the player shows a next scene (its Sync button
    is not disabled for want of one) and the position is not negative,
    live sync is not a silent no-op: it finds a scene that starts after
    the position and moves its start to the position. *)
Theorem sync_button_enabled_moves_a_scene (st : App.AppState)
    (project : ProjectData) (next : Scene) :
  App.project st = Some project →
  PlayerClock.nextScene (scenes project) (App.currentTime st) = Some next →
  (0 <= App.currentTime st)%Q →
  ∃ i s project',
    App.nextSceneIndex project (App.currentTime st) = Some i
    ∧ scenes project !! i = Some s
    ∧ (App.currentTime st < startTime s)%Q
    ∧ App.project (App.handleRecordSync st) = Some project'
    ∧ scenes project' !! i = Some (with_startTime (App.currentTime st) s).
Proof.
  intros Hp Hnext Hpos. apply nextScene_Some in Hnext.
  assert (Hlater : (App.currentTime st < startTime next)%Q).
  { eapply after_active_not_started; [| exact Hnext]. lia. }
  destruct (App.nextSceneIndex project (App.currentTime st)) as [i|] eqn:Hn.
  2:{ pose proof (proj1 (nextSceneIndex_None _ _) Hn _ _ Hnext). lra. }
  pose proof Hn as (s & Hs & Hgt & _)%nextSceneIndex_Some.
  destruct (prevSceneTime_started _ _ _ Hn) as (prev & Hprev & Hl & Hf).
  assert (Hle : (prev <= App.currentTime st)%Q).
  { destruct i as [|i]; [rewrite Hf by done; lra | apply Hl; lia]. }
  exists i, s. eexists. split; [done |]. split; [done |]. split; [done |].
  rewrite (handleRecordSync_accept st project i prev Hp Hn Hprev Hle).
  split; [done |]. cbn. by rewrite list_lookup_alter_eq, Hs.
Qed.

Lemma sync_button_enabled_moves_a_scene_witness :
  ∃ i s project',
    App.nextSceneIndex
      {| scenes := scenes_at [0; 8; 3; 9]%Q; duration := 30 |} 5 = Some i
    ∧ scenes_at [0; 8; 3; 9]%Q !! i = Some s
    ∧ (5 < startTime s)%Q
    ∧ App.project
        (App.handleRecordSync (App.studio (scenes_at [0; 8; 3; 9]%Q) 30 5))
      = Some project'
    ∧ scenes project' !! i = Some (with_startTime 5 s).
Proof.
  apply (sync_button_enabled_moves_a_scene
           (App.studio (scenes_at [0; 8; 3; 9]%Q) 30 5)
           {| scenes := scenes_at [0; 8; 3; 9]%Q; duration := 30 |}
           (scene_at 3 9)).
  - reflexivity.
  - reflexivity.
  - cbn. lra.
Defined.

(** Extra X11.  On a timeline whose start times never go down, once the
    active scene has started the scene live sync moves is the player's
    next scene, the one right after the active scene. *)
Theorem sync_moves_the_next_scene (project : ProjectData) (t : Q)
    (active next : Scene) :
  non_decreasing (scenes project) →
  scenes project !! Player.activeSceneIndex (scenes project) t = Some active →
  (startTime active <= t)%Q →
  PlayerClock.nextScene (scenes project) t = Some next →
  App.nextSceneIndex project t
  = Some (Player.activeSceneIndex (scenes project) t + 1).
Proof.
  intros Hsorted Hactive Hstarted Hnext%nextScene_Some.
  apply nextSceneIndex_Some. exists next. split; [done |]. split.
  - eapply after_active_not_started; [| exact Hnext]. lia.
  - intros j y Hy Hj.
    assert (Hja : j ≤ Player.activeSceneIndex (scenes project) t) by lia.
    specialize (Hsorted _ _ _ _ Hja Hy Hactive). lra.
Qed.

Lemma sync_moves_the_next_scene_witness :
  App.nextSceneIndex
    {| scenes := scenes_at [0; 5; 10]%Q; duration := 30 |} 7 = Some 2.
Proof.
  apply (sync_moves_the_next_scene
           {| scenes := scenes_at [0; 5; 10]%Q; duration := 30 |} 7
           (scene_at 1 5) (scene_at 2 10)).
  - intros [|[|[|a]]] [|[|[|b]]] sa sb Hab Ha Hb; cbn in Ha, Hb;
      inversion Ha; inversion Hb; subst; cbn; (lra || lia).
  - reflexivity.
  - cbn. lra.
  - reflexivity.
Defined.

(** Extra X12.  The scene list and the player agree: the card of the
    player's active scene is highlighted as soon as that scene has
    started, and on a timeline whose start times never go down no other
    card is. *)
Theorem highlighted_card_is_active_scene (project : ProjectData) (t : Q)
    (idx : nat) (scene : Scene) :
  scenes project !! idx = Some scene →
  (idx = Player.activeSceneIndex (scenes project) t →
   (startTime scene <= t)%Q →
   SceneList.isActive project t idx scene = true)
  ∧ (non_decreasing (scenes project) →
     SceneList.isActive project t idx scene = true →
     idx = Player.activeSceneIndex (scenes project) t).
Proof.
  intros Hs. unfold SceneList.isActive. split.
  - intros -> Hle. apply andb_true_iff. split; [by apply ge_true |].
    destruct (scenes project !! (_ + 1)) as [next|] eqn:Hnext; [| done].
    apply gt_true. eapply after_active_not_started; [| exact Hnext]. lia.
  - intros Hsorted [Hge Hnext]%andb_true_iff. apply ge_true in Hge.
    symmetry. apply (activeSceneIndex_unique _ _ _ scene Hs Hge).
    intros j s' Hj Hs'.
    destruct (scenes project !! (idx + 1)) as [next|] eqn:Hn.
    + apply gt_true in Hnext.
      assert (Hij : idx + 1 ≤ j) by lia.
      specialize (Hsorted _ _ _ _ Hij Hn Hs'). lra.
    + apply lookup_ge_None in Hn. apply lookup_lt_Some in Hs'. lia.
Qed.

Lemma highlighted_card_is_active_scene_witness :
  SceneList.isActive {| scenes := scenes_at [0; 5; 10]%Q; duration := 30 |}
    7 1 (scene_at 1 5) = true.
Proof.
  apply (highlighted_card_is_active_scene
           {| scenes := scenes_at [0; 5; 10]%Q; duration := 30 |} 7 1
           (scene_at 1 5)).
  - reflexivity.
  - reflexivity.
  - cbn. lra.
Defined.

(** Extra X13.  Clicking the card of a scene seeks to its start time; on
    a timeline whose start times never go down, and whose next scene, if
    any, starts strictly later, the player then shows that scene. *)
Theorem card_click_shows_scene (st : App.AppState) (project : ProjectData)
    (idx : nat) (scene : Scene) :
  non_decreasing (scenes project) →
  scenes project !! idx = Some scene →
  (∀ next, scenes project !! (idx + 1) = Some next →
     (startTime scene < startTime next)%Q) →
  App.currentTime (SceneList.onClick scene st) = startTime scene
  ∧ App.project (SceneList.onClick scene st) = App.project st
  ∧ Player.activeSceneIndex (scenes project)
      (App.currentTime (SceneList.onClick scene st)) = idx.
Proof.
  intros Hsorted Hs Hnext. split; [done |]. split; [done |]. cbn.
  apply (activeSceneIndex_unique _ _ _ scene Hs); [lra |].
  intros j s' Hj Hs'.
  destruct (scenes project !! (idx + 1)) as [next|] eqn:Hn.
  - specialize (Hnext next eq_refl).
    assert (Hij : idx + 1 ≤ j) by lia.
    specialize (Hsorted _ _ _ _ Hij Hn Hs'). lra.
  - apply lookup_ge_None in Hn. apply lookup_lt_Some in Hs'. lia.
Qed.

Lemma card_click_shows_scene_witness :
  Player.activeSceneIndex (scenes_at [0; 5; 10]%Q)
    (App.currentTime
       (SceneList.onClick (scene_at 1 5)
          (App.studio (scenes_at [0; 5; 10]%Q) 30 0))) = 1.
Proof.
  apply (card_click_shows_scene
           (App.studio (scenes_at [0; 5; 10]%Q) 30 0)
           {| scenes := scenes_at [0; 5; 10]%Q; duration := 30 |} 1
           (scene_at 1 5)).
  - intros [|[|[|a]]] [|[|[|b]]] sa sb Hab Ha Hb; cbn in Ha, Hb;
      inversion Ha; inversion Hb; subst; cbn; (lra || lia).
  - reflexivity.
  - intros next Hn. cbn in Hn. inversion Hn. cbn. lra.
Defined.




(** ** More on the offline renderer *)

Section Frames.

Import VideoRecorder.

Lemma activeSceneIndex_in_range (scs : list Scene) (t : Q) :
  scs ≠ [] → Player.activeSceneIndex scs t < length scs.
Proof.
  intros Hne.
  destruct (activeSceneIndex_last_qualifying t scs)
    as [[(s & Hs & _) _] | [_ ->]].
  - by eapply lookup_lt_Some.
  - destruct scs; [done | cbn; lia].
Qed.

Lemma nextStartTime_is_Some (project : ProjectData) (i : nat) :
  is_Some (nextStartTime project i).
Proof.
  unfold nextStartTime.
  destruct (Z.of_nat i <? Z.of_nat (length (scenes project)) - 1)%Z eqn:E;
    [| by eexists].
  apply Z.ltb_lt in E.
  destruct (lookup_lt_is_Some_2 (scenes project) (i + 1)) as [s Hs]; [lia |].
  rewrite Hs. by eexists.
Qed.

(** The progress of a drawn frame is a number between 0 and 1. *)
Lemma drawn_progress_bounds (project : ProjectData) (t : Q) (scene : Scene)
    (e : Q) :
  (t < duration project)%Q →
  scenes project !! activeSceneIndex project t = Some scene →
  nextStartTime project (activeSceneIndex project t) = Some e →
  ∃ q, sceneProgress t scene e = JS.Fin q ∧ (0 <= q)%Q ∧ (q <= 1)%Q.
Proof.
  intros Hd Hs He.
  destruct (drawn_progress project t scene e Hd Hs He)
    as (q & Hq & Hreg & Hzero & _).
  exists q. split; [done |].
  destruct (Qeq_dec e (startTime scene)) as [Heq | Hne].
  - specialize (Hzero Heq). lra.
  - specialize (Hreg Hne).
    pose proof (clamp_bounds
                  ((t - startTime scene) / (e - startTime scene))) as Hb.
    revert Hreg Hb.
    generalize (clamp ((t - startTime scene) / (e - startTime scene)) 0 1).
    intros; lra.
Qed.

(** What [preload] has entered for an id. *)
Lemma preload_fold (loads : string → bool) (scs : list Scene)
    (acc : gmap nat string) (i : nat) :
  is_Some
    (foldl
       (λ imageAssets scene,
          match imageUrl scene with
          | Some src =>
              if String.eqb src "" then imageAssets
              else if loads src then <[id scene := src]> imageAssets
              else imageAssets
          | None => imageAssets
          end) acc scs !! i)
  ↔ is_Some (acc !! i)
    ∨ ∃ s src, s ∈ scs ∧ id s = i ∧ imageUrl s = Some src
               ∧ src ≠ EmptyString ∧ loads src = true.
Proof.
  revert acc. induction scs as [|s rest IH]; intros acc; cbn [foldl].
  - split; [by left |]. intros [H | (s & src & Hin & _)]; [done |].
    by apply elem_of_nil in Hin.
  - rewrite IH. split.
    + intros [Hacc | (s' & src & Hin & Hrest)].
      * destruct (imageUrl s) as [src|] eqn:Hurl; [| by left].
        destruct (String.eqb src "") eqn:Ee; [by left |].
        destruct (loads src) eqn:El; [| by left].
        destruct (decide (id s = i)) as [Hid | Hne].
        -- right. exists s, src. apply String.eqb_neq in Ee.
           split_and!; [left | done..].
        -- rewrite lookup_insert_ne in Hacc by done. by left.
      * right. exists s', src. split; [by right | done].
    + intros [Hacc | (s' & src & Hin & Hid & Hurl & Hne & Hl)].
      * left. destruct (imageUrl s) as [src|]; [| done].
        destruct (String.eqb src ""); [done |].
        destruct (loads src); [| done].
        destruct (decide (id s = i)) as [-> | Hne].
        -- rewrite lookup_insert_eq. by eexists.
        -- by rewrite lookup_insert_ne.
      * apply elem_of_cons in Hin as [-> | Hin].
        -- left. rewrite Hurl, (eqb_empty_false _ Hne), Hl, Hid.
           rewrite lookup_insert_eq. by eexists.
        -- right. by exists s', src.
Qed.

End Frames.

(** Extra X15.  A frame of an export: the recorder stops exactly when the
    time has reached the duration; before that, [drawFrame] throws
    exactly on a project without scenes; and a drawn frame shows a scene
    of the project, with its script as subtitle unless that is empty,
    scaled exactly when an image is held for its id. *)
Theorem drawFrame_outcomes (project : ProjectData)
    (imageAssets : gmap nat string) (t : Q) :
  (VideoRecorder.drawFrame project imageAssets t = VideoRecorder.Stopped
   ↔ (duration project <= t)%Q)
  ∧ (VideoRecorder.drawFrame project imageAssets t = VideoRecorder.Threw
     ↔ (t < duration project)%Q ∧ scenes project = [])
  ∧ ∀ f, VideoRecorder.drawFrame project imageAssets t = VideoRecorder.Drawn f →
      ∃ scene,
        scenes project !! VideoRecorder.frameIndex f = Some scene
        ∧ VideoRecorder.frameSubtitle f
          = (if String.eqb (script scene) "" then None
             else Some (script scene))
        ∧ (VideoRecorder.frameScale f = None
           ↔ imageAssets !! id scene = None).
Proof.
  unfold VideoRecorder.drawFrame.
  destruct (JS.ge t (duration project)) eqn:G.
  { apply ge_true in G. split; [done |]. split; [| done].
    split; [done | intros [H _]; lra]. }
  assert (Hlt : (t < duration project)%Q).
  { apply Qnot_le_lt. intros H. apply ge_true in H. congruence. }
  destruct (nextStartTime_is_Some project
              (VideoRecorder.activeSceneIndex project t)) as [e He].
  rewrite He.
  destruct (scenes project !! VideoRecorder.activeSceneIndex project t)
    as [scene|] eqn:Hs.
  - split; [split; [done | lra] |]. split.
    + split; [done |]. intros [_ Hnil]. rewrite Hnil in Hs. done.
    + intros f [= <-]. exists scene. cbn. split; [done |]. split.
      * destruct (String.eqb (script scene) "") eqn:E.
        -- apply String.eqb_eq in E. by rewrite bool_decide_eq_true_2.
        -- apply String.eqb_neq in E. by rewrite bool_decide_eq_false_2.
      * by destruct (imageAssets !! id scene).
  - split; [split; [done | lra] |]. split; [| done].
    split; [| done]. intros _. split; [done |].
    destruct (scenes project) as [|s rest] eqn:Hsc; [done |]. exfalso.
    apply lookup_ge_None in Hs.
    pose proof (activeSceneIndex_in_range (scenes project) t) as Hr.
    rewrite renderer_index_is_player_index, Hsc in Hs.
    rewrite Hsc in Hr. specialize (Hr ltac:(done)). lia.
Qed.

(** Extra X16.  In every frame drawn with an image the zoom scale is a
    number between 1 and 1.25: the image never shrinks below the frame
    it covers. *)
Theorem kenBurns_scale_bounds (project : ProjectData)
    (imageAssets : gmap nat string) (t : Q) (f : VideoRecorder.Frame)
    (sc : JS.num) :
  VideoRecorder.drawFrame project imageAssets t = VideoRecorder.Drawn f →
  VideoRecorder.frameScale f = Some sc →
  ∃ q, sc = JS.Fin q ∧ (1 <= q)%Q ∧ (q <= 1.25)%Q.
Proof.
  intros (Hd & Hi & scene & e & Hs & He & Hp & Hsc)%drawFrame_Drawn Hscale.
  rewrite Hi in Hs, He.
  destruct (drawn_progress_bounds project t scene e Hd Hs He)
    as (p & Hq & Hp0 & Hp1).
  rewrite Hsc in Hscale. apply fmap_Some in Hscale as (img & _ & ->).
  rewrite Hp, Hq. unfold VideoRecorder.scale.
  destruct (VideoRecorder.frameIndex f mod 2 =? 0); cbn;
    eexists; (split; [reflexivity |]); lra.
Qed.

Lemma kenBurns_scale_bounds_witness :
  ∃ q,
    VideoRecorder.scale 1
      (VideoRecorder.sceneProgress 12 (scene_at 1 10) 20) = JS.Fin q
    ∧ (1 <= q)%Q ∧ (q <= 1.25)%Q.
Proof.
  apply (kenBurns_scale_bounds
           {| scenes := scenes_at [0; 10]%Q; duration := 20 |}
           {[ 1 := "a"; 2 := "b" ]} 12
           {| VideoRecorder.frameIndex := 1;
              VideoRecorder.frameProgress :=
                VideoRecorder.sceneProgress 12 (scene_at 1 10) 20;
              VideoRecorder.frameScale :=
                Some (VideoRecorder.scale 1
                        (VideoRecorder.sceneProgress 12 (scene_at 1 10) 20));
              VideoRecorder.frameSubtitle := None |}).
  - reflexivity.
  - reflexivity.
Defined.

(** Extra X17.  For a positive duration and a time that is not negative,
    the export progress reported is a number between 0 and 100, equal to
    [100 * time / duration] while the export runs and to 100 once the
    time has reached the duration. *)
Theorem reportedProgress_bounds (t d : Q) :
  (0 < d)%Q → (0 <= t)%Q →
  ∃ q, ExportVideo.reportedProgress t d = JS.Fin q
       ∧ (0 <= q)%Q ∧ (q <= 100)%Q
       ∧ ((t < d)%Q → (q == t / d * 100)%Q)
       ∧ ((d <= t)%Q → (q == 100)%Q).
Proof.
  intros Hd Ht. unfold ExportVideo.reportedProgress, JS.div.
  assert (E : Qeq_bool d 0 = false).
  { destruct (Qeq_bool d 0) eqn:E; [| done]. apply Qeq_bool_iff in E. lra. }
  rewrite E. cbn.
  assert (Hr0 : (0 <= t / d)%Q) by (apply Qle_shift_div_l; lra).
  assert (Hlt : (t < d)%Q → (t / d < 1)%Q)
    by (intros; apply Qlt_shift_div_r; lra).
  assert (Hge : (d <= t)%Q → (1 <= t / d)%Q)
    by (intros; apply Qle_shift_div_l; lra).
  revert Hr0 Hlt Hge. generalize (t / d)%Q. intros r Hr0 Hlt Hge.
  destruct (Qle_bool 100 (r * 100)) eqn:E100.
  - apply Qle_bool_iff in E100. exists 100%Q.
    split; [done |]. split; [lra |]. split; [lra |]. split; [| done].
    intros H. specialize (Hlt H). lra.
  - assert (H100 : (r * 100 < 100)%Q).
    { apply Qnot_le_lt. intros H. apply Qle_bool_iff in H. congruence. }
    exists (r * 100)%Q. split; [done |]. split; [lra |]. split; [lra |].
    split; [done |]. intros H. specialize (Hge H). lra.
Qed.

Lemma reportedProgress_bounds_witness :
  ∃ q, ExportVideo.reportedProgress 5 10 = JS.Fin q
       ∧ (0 <= q)%Q ∧ (q <= 100)%Q.
Proof.
  destruct (reportedProgress_bounds 5 10) as (q & Hq & H0 & H100 & _).
  - lra.
  - lra.
  - by exists q.
Defined.

(** Extra X18.  The preloaded images: an image is held for an id exactly
    when some scene with that id has a non-empty [imageUrl] that loads.
    A scene without a loadable image is thus drawn without image, and
    with one it is drawn scaled. *)
Theorem preload_holds_loaded_images (loads : string → bool)
    (project : ProjectData) (t : Q) (i : nat) :
  (is_Some (ExportVideo.preload loads (scenes project) !! i)
   ↔ ∃ s src, s ∈ scenes project ∧ id s = i ∧ imageUrl s = Some src
              ∧ src ≠ EmptyString ∧ loads src = true)
  ∧ ∀ f, VideoRecorder.drawFrame project
           (ExportVideo.preload loads (scenes project)) t
         = VideoRecorder.Drawn f →
      ∃ scene,
        scenes project !! VideoRecorder.frameIndex f = Some scene
        ∧ (is_Some (VideoRecorder.frameScale f)
           ↔ ∃ s src, s ∈ scenes project ∧ id s = id scene
                      ∧ imageUrl s = Some src
                      ∧ src ≠ EmptyString ∧ loads src = true).
Proof.
  assert (Hpre : ∀ i,
    is_Some (ExportVideo.preload loads (scenes project) !! i)
    ↔ ∃ s src, s ∈ scenes project ∧ id s = i ∧ imageUrl s = Some src
               ∧ src ≠ EmptyString ∧ loads src = true).
  { intros j. unfold ExportVideo.preload. rewrite preload_fold.
    split; [intros [H | H]; [| done] | by right].
    rewrite lookup_empty in H. by destruct H. }
  split; [apply Hpre |].
  intros f (_ & _ & scene & e & Hs & _ & _ & Hsc)%drawFrame_Drawn.
  exists scene. split; [done |]. rewrite <- Hpre, Hsc.
  by rewrite fmap_is_Some.
Qed.


(** ** Raw PCM decoding *)

Section Pcm.

Import AudioUtils.

Lemma pairs_ind (P : list Z → Prop) :
  P [] → (∀ x, P [x]) → (∀ x y l, P l → P (x :: y :: l)) → ∀ l, P l.
Proof.
  intros Hnil Hone Hstep l.
  assert (H : P l ∧ ∀ x, P (x :: l)); [| by destruct H].
  induction l as [|y l [IH1 IH2]]; [by split |].
  split; [apply IH2 |]. intros x. by apply Hstep.
Qed.

Lemma atobUint8_length (s : string) :
  length (atobUint8 s) = String.length s.
Proof.
  unfold atobUint8. rewrite length_fmap.
  induction s as [|c s IH]; cbn; [done | by rewrite IH].
Qed.

Lemma atobUint8_bytes (s : string) :
  Forall (λ b, (0 <= b < 256)%Z) (atobUint8 s).
Proof.
  unfold atobUint8. apply Forall_fmap, Forall_forall. intros c _. cbn.
  pose proof (nat_ascii_bounded c). lia.
Qed.

Lemma toInt16_range (lo hi : Z) :
  (0 <= lo < 256)%Z → (0 <= hi < 256)%Z →
  (-32768 <= toInt16 (lo + 256 * hi) <= 32767)%Z.
Proof.
  intros Hlo Hhi. unfold toInt16.
  destruct (lo + 256 * hi <? 32768)%Z eqn:E.
  - apply Z.ltb_lt in E. lia.
  - apply Z.ltb_ge in E. lia.
Qed.

Lemma int16Array_spec (bytes : list Z) :
  Forall (λ b, (0 <= b < 256)%Z) bytes →
  (int16Array bytes = None ↔ Nat.odd (length bytes) = true)
  ∧ ∀ data, int16Array bytes = Some data →
      2 * length data = length bytes
      ∧ Forall (λ v, (-32768 <= v <= 32767)%Z) data.
Proof.
  induction bytes as [| x | lo hi rest IH] using pairs_ind; intros Hb.
  - split; [done |]. intros data [= <-]. by split.
  - split; [done |]. intros data. cbn. done.
  - apply Forall_cons in Hb as [Hlo Hb]. apply Forall_cons in Hb as [Hhi Hb].
    destruct (IH Hb) as [IHn IHs]. cbn [int16Array].
    change (Nat.odd (length (lo :: hi :: rest)))
      with (Nat.odd (length rest)).
    destruct (int16Array rest) as [tail|]; cbn.
    + split; [split; [done |] |].
      * intros Hodd. by apply IHn in Hodd.
      * intros data [= <-]. destruct (IHs tail eq_refl) as [Hl Hr].
        split; [cbn; lia |]. constructor; [by apply toInt16_range | done].
    + split; [| done]. split; [intros _; by apply IHn | done].
Qed.

Lemma toInt16_int16Bytes (v : Z) :
  (-32768 <= v <= 32767)%Z →
  match int16Bytes v with
  | [lo; hi] => (0 <= lo < 256)%Z ∧ (0 <= hi < 256)%Z
                ∧ toInt16 (lo + 256 * hi) = v
  | _ => False
  end.
Proof.
  intros Hv. unfold int16Bytes, toInt16. cbv zeta.
  split; [| split].
  - apply Z.mod_pos_bound. lia.
  - split.
    + apply Z.div_pos; [apply Z.mod_pos_bound |]; lia.
    + apply Z.div_lt_upper_bound; [lia |].
      pose proof (Z.mod_pos_bound v 65536). lia.
  - replace ((v mod 65536) mod 256 + 256 * (v mod 65536 / 256))%Z
      with (v mod 65536)%Z
      by (pose proof (Z.div_mod (v mod 65536) 256); lia).
    destruct (Z_lt_le_dec v 0) as [Hneg | Hpos].
    + assert (Hu : (v mod 65536 = v + 65536)%Z).
      { rewrite <- (Z.mod_add v 1 65536) by lia. apply Z.mod_small. lia. }
      rewrite Hu.
      destruct (v + 65536 <? 32768)%Z eqn:E;
        [apply Z.ltb_lt in E | apply Z.ltb_ge in E]; lia.
    + rewrite Z.mod_small by lia.
      destruct (v <? 32768)%Z eqn:E;
        [apply Z.ltb_lt in E | apply Z.ltb_ge in E]; lia.
Qed.

Lemma atobUint8_binaryStringOf (bytes : list Z) :
  Forall (λ b, (0 <= b < 256)%Z) bytes →
  atobUint8 (binaryStringOf bytes) = bytes.
Proof.
  intros Hb. unfold atobUint8, binaryStringOf.
  rewrite list_ascii_of_string_of_list_ascii, <- list_fmap_compose.
  rewrite <- (list_fmap_id bytes) at 2. apply Forall_fmap_ext_1.
  eapply Forall_impl; [exact Hb |]. intros b Hr. cbn beta in Hr.
  assert (Hn : Z.to_nat b < 256) by lia.
  change (Z.of_nat (nat_of_ascii (ascii_of_nat (Z.to_nat b))) = b).
  rewrite nat_ascii_embedding by exact Hn. lia.
Qed.

Lemma int16Array_int16Bytes (vs : list Z) :
  Forall (λ v, (-32768 <= v <= 32767)%Z) vs →
  Forall (λ b, (0 <= b < 256)%Z) (mjoin (int16Bytes <$> vs))
  ∧ int16Array (mjoin (int16Bytes <$> vs)) = Some vs.
Proof.
  induction 1 as [|v vs Hv Hvs [IHb IHd]]; [by split |].
  pose proof (toInt16_int16Bytes v Hv) as Hbytes.
  rewrite fmap_cons.
  change (mjoin (int16Bytes v :: (int16Bytes <$> vs)))
    with (int16Bytes v ++ mjoin (int16Bytes <$> vs)).
  destruct (int16Bytes v) as [|lo [|hi [|]]]; try done.
  destruct Hbytes as (Hlo & Hhi & Hback).
  split.
  - cbn [app]. constructor; [done |]. by constructor.
  - cbn [app int16Array]. rewrite IHd. cbn. by rewrite Hback.
Qed.

End Pcm.

(** Extra X19.  The 16-bit view of the decoded bytes throws exactly on a
    byte string of odd length; otherwise PCM decoding computes one
    sample per two bytes, each a 16-bit integer divided by 32768, hence at
    least -1 and less than 1. *)
Theorem channelData_samples (binaryString : string) :
  (AudioUtils.channelData binaryString = None
   ↔ Nat.odd (String.length binaryString) = true)
  ∧ ∀ samples, AudioUtils.channelData binaryString = Some samples →
      2 * length samples = String.length binaryString
      ∧ Forall (λ x, ∃ v, (-32768 <= v <= 32767)%Z
                          ∧ x = (inject_Z v / 32768)%Q
                          ∧ (-1 <= x)%Q ∧ (x < 1)%Q) samples.
Proof.
  unfold AudioUtils.channelData.
  destruct (int16Array_spec (AudioUtils.atobUint8 binaryString)
              (atobUint8_bytes binaryString)) as [Hnone Hsome].
  rewrite atobUint8_length in Hnone, Hsome.
  destruct (AudioUtils.int16Array (AudioUtils.atobUint8 binaryString))
    as [data|].
  - split; [split; [done |] |].
    + intros Hodd. by apply Hnone in Hodd.
    + intros samples [= <-]. destruct (Hsome data eq_refl) as [Hlen Hrange].
      rewrite length_fmap. split; [done |].
      apply Forall_fmap. eapply Forall_impl; [exact Hrange |].
      intros v Hv. cbn beta in Hv |- *.
      exists v. split; [done |]. split; [done |].
      assert (Hlo : (inject_Z (-32768) <= inject_Z v)%Q)
        by (rewrite <- Zle_Qle; lia).
      assert (Hhi : (inject_Z v < inject_Z 32768)%Q)
        by (rewrite <- Zlt_Qlt; lia).
      change (inject_Z (-32768)) with (-32768)%Q in Hlo.
      change (inject_Z 32768) with 32768%Q in Hhi.
      split.
      * apply Qle_shift_div_l; lra.
      * apply Qlt_shift_div_r; lra.
  - split; [| done]. split; [intros _; by apply Hnone | done].
Qed.

(** Extra X20.  [decodeAudioData] inverts the little-endian 16-bit
    encoding: the byte string that holds the samples [vs], two bytes each,
    low byte first, decodes to a buffer of the samples [v / 32768], in
    order, when there is at least one sample and the context takes the
    sample rate; with no sample at all, or a rate the context refuses,
    the creation of the buffer throws. *)
Theorem decodeAudioData_decodes_pcm16 (supportsRate : Q → bool)
    (vs : list Z) (sampleRate : Q) :
  Forall (λ v, (-32768 <= v <= 32767)%Z) vs →
  let binaryString := binaryStringOf (mjoin (AudioUtils.int16Bytes <$> vs)) in
  (vs ≠ [] → supportsRate sampleRate = true →
     AudioUtils.decodeAudioData supportsRate binaryString sampleRate
     = AudioUtils.Buffer ((λ v, (inject_Z v / 32768)%Q) <$> vs))
  ∧ (vs = [] ∨ supportsRate sampleRate = false →
     AudioUtils.decodeAudioData supportsRate binaryString sampleRate
     = AudioUtils.NotSupportedError).
Proof.
  intros Hvs binaryString. destruct (int16Array_int16Bytes vs Hvs) as [Hb Hd].
  unfold AudioUtils.decodeAudioData, binaryString.
  rewrite (atobUint8_binaryStringOf _ Hb), Hd. split.
  - intros Hne ->. by destruct vs.
  - intros [-> | ->]; [done |]. by rewrite orb_true_r.
Qed.

Lemma decodeAudioData_decodes_pcm16_witness :
  AudioUtils.decodeAudioData (λ _, true)
    (binaryStringOf (mjoin (AudioUtils.int16Bytes <$> [-32768; 0; 16384]%Z)))
    24000
  = AudioUtils.Buffer
      ((λ v, (inject_Z v / 32768)%Q) <$> [-32768; 0; 16384]%Z)
  ∧ AudioUtils.decodeAudioData (λ _, true) (binaryStringOf []) 24000
    = AudioUtils.NotSupportedError.
Proof.
  split.
  - destruct (decodeAudioData_decodes_pcm16 (λ _, true)
                [-32768; 0; 16384]%Z 24000) as [Hok _];
      [repeat constructor; lia |].
    by apply Hok.
  - destruct (decodeAudioData_decodes_pcm16 (λ _, true) [] 24000)
      as [_ Hempty]; [constructor |].
    apply Hempty. by left.
Defined.


(** ** The content generation service *)

Section Gemini.

Import GeminiService.

(** The loop returns the URL of the first part that holds image data. *)
Lemma firstImage_Some (parts : list Part) (url : string) :
  firstImage parts = Some url ↔
  ∃ i d, parts !! i = Some {| inlineData := Some d |}
         ∧ data d ≠ EmptyString
         ∧ (∀ j part, j < i → parts !! j = Some part → imageless part)
         ∧ url = "data:" +:+ mimeType d +:+ ";base64," +:+ data d.
Proof.
  induction parts as [|part rest IH]; cbn [firstImage].
  - split; [done |]. by intros (i & d & Hi & _).
  - destruct part as [[d|]]; cbn [inlineData].
    + destruct (String.eqb (data d) "") eqn:E.
      * apply String.eqb_eq in E. rewrite IH. split.
        -- intros (i & d' & Hi & Hd & Hbefore & ->).
           exists (S i), d'. split_and!; [done | done | | done].
           intros [|j] p Hj Hp; [by inversion Hp | apply (Hbefore j p); [lia | done]].
        -- intros ([|i] & d' & Hi & Hd & Hbefore & ->).
           ++ inversion Hi; subst d'. done.
           ++ exists i, d'. split_and!; [done | done | | done].
              intros j p Hj Hp. apply (Hbefore (S j) p); [lia | done].
      * apply String.eqb_neq in E. split.
        -- intros [= <-]. exists 0, d. split_and!; [done | done | | done].
           intros j p Hj. lia.
        -- intros ([|i] & d' & Hi & Hd & Hbefore & ->).
           ++ by inversion Hi.
           ++ exfalso. specialize (Hbefore 0 _ ltac:(lia) eq_refl).
              by cbn in Hbefore.
    + rewrite IH. split.
      * intros (i & d' & Hi & Hd & Hbefore & ->).
        exists (S i), d'. split_and!; [done | done | | done].
        intros [|j] p Hj Hp; [by inversion Hp | apply (Hbefore j p); [lia | done]].
      * intros ([|i] & d' & Hi & Hd & Hbefore & ->); [by inversion Hi |].
        exists i, d'. split_and!; [done | done | | done].
        intros j p Hj Hp. apply (Hbefore (S j) p); [lia | done].
Qed.

Lemma firstImage_urls (parts : list Part) (url : string) :
  firstImage parts = Some url → ∃ rest, url = "data:" +:+ rest.
Proof.
  intros (i & d & _ & _ & _ & ->)%firstImage_Some. by eexists.
Qed.

Lemma generateSceneImage_urls
    (generateContent : string → string → string + option (list Part))
    (envKey visualDescription apiKey url : string) :
  generateSceneImage generateContent envKey visualDescription apiKey
  = inr url →
  ∃ rest, url = "data:" +:+ rest.
Proof.
  unfold generateSceneImage.
  destruct (getAiClient apiKey envKey) as [|key]; [done |].
  destruct (generateContent key visualDescription) as [|[parts|]]; try done.
  destruct (firstImage parts) as [url'|] eqn:Hf; [| done].
  intros [= <-]. by eapply firstImage_urls.
Qed.

Lemma generateSceneImage_no_key
    (generateContent : string → string → string + option (list Part))
    (visualDescription : string) :
  generateSceneImage generateContent EmptyString visualDescription EmptyString
  = inl noKeyMessage.
Proof. reflexivity. Qed.

End Gemini.

(** Extra X21.  An image generation call succeeds exactly when a key is
    at hand (the one passed, else the one of the environment), the
    request made with it answers, and some part of the answer holds
    image data; the result is then the data URL of the first such
    part. *)
Theorem generateSceneImage_result
    (generateContent :
       string → string → string + option (list GeminiService.Part))
    (envKey visualDescription apiKey url : string) :
  GeminiService.generateSceneImage generateContent envKey visualDescription
    apiKey = inr url
  ↔ ∃ parts i d,
      let key := if String.eqb apiKey "" then envKey else apiKey in
      key ≠ EmptyString
      ∧ generateContent key visualDescription = inr (Some parts)
      ∧ parts !! i = Some {| GeminiService.inlineData := Some d |}
      ∧ GeminiService.data d ≠ EmptyString
      ∧ (∀ j part, j < i → parts !! j = Some part → imageless part)
      ∧ url = "data:" +:+ GeminiService.mimeType d +:+ ";base64,"
                +:+ GeminiService.data d.
Proof.
  unfold GeminiService.generateSceneImage, GeminiService.getAiClient.
  cbv zeta.
  set (key := if String.eqb apiKey "" then envKey else apiKey).
  destruct (String.eqb key "") eqn:Ek.
  { apply String.eqb_eq in Ek. split; [done |].
    by intros (parts & i & d & Hne & _). }
  apply String.eqb_neq in Ek.
  destruct (generateContent key visualDescription) as [message | [parts|]] eqn:Hg.
  - split; [done |]. intros (parts & i & d & _ & Hparts & _). congruence.
  - destruct (GeminiService.firstImage parts) as [url'|] eqn:Hf.
    + split.
      * intros [= <-]. apply firstImage_Some in Hf as (i & d & H).
        exists parts, i, d. by split_and!; try apply H.
      * intros (parts' & i & d & _ & [= <-] & Hi & Hd & Hb & ->).
        f_equal.
        assert (Hurl : GeminiService.firstImage parts
                       = Some ("data:" +:+ GeminiService.mimeType d
                                 +:+ ";base64," +:+ GeminiService.data d))
          by (apply firstImage_Some; by exists i, d).
        congruence.
    + split; [done |].
      intros (parts' & i & d & _ & [= <-] & Hi & Hd & Hb & ->).
      assert (Hurl : GeminiService.firstImage parts
                     = Some ("data:" +:+ GeminiService.mimeType d
                               +:+ ";base64," +:+ GeminiService.data d))
        by (apply firstImage_Some; by exists i, d).
      congruence.
  - split; [done |]. intros (parts & i & d & _ & Hparts & _). congruence.
Qed.

(** Extra X22.  Visual generation with the image service: it runs to
    its end whatever the service answers; every scene ends [ready] with a
    data URL as its image, or [error] with its image as it was; and
    without a key, neither passed nor in the environment, every scene
    ends [error]. *)
Theorem generateVisuals_with_service (currentProject : ProjectData)
    (generateContent :
       string → string → string + option (list GeminiService.Part))
    (envKey key : string) :
  ∃ g final,
    App.generateVisuals currentProject
      (GeminiService.sceneImageOutcome generateContent envKey key)
      (Some currentProject) = Some g
    ∧ App.genProject g = Some final
    ∧ (∀ i s, scenes currentProject !! i = Some s →
         ∃ s', scenes final !! i = Some s'
               ∧ ((status s' = Ready
                   ∧ ∃ rest, imageUrl s' = Some ("data:" +:+ rest))
                  ∨ (status s' = Error ∧ imageUrl s' = imageUrl s))
               ∧ (key = EmptyString → envKey = EmptyString →
                  status s' = Error))
    ∧ length (scenes final) = length (scenes currentProject).
Proof.
  rewrite generateVisuals_runs. eexists _, _.
  split; [done |]. split; [done |]. cbn. split; [| apply length_imap].
  intros i s Hs. rewrite list_lookup_imap, Hs. cbn. eexists. split; [done |].
  unfold App.generated, GeminiService.sceneImageOutcome.
  destruct (GeminiService.generateSceneImage generateContent envKey
              (prompt s) key) as [message | url] eqn:Hg; cbn.
  - split; [by right | done].
  - split.
    + left. split; [done |].
      apply generateSceneImage_urls in Hg as [rest ->]. by exists rest.
    + intros -> ->. by rewrite generateSceneImage_no_key in Hg.
Qed.


(** Extra X23.  Aspect fill: an image of positive width and height is
    drawn in a rectangle that keeps its proportions, is centred on the
    1920 x 1080 frame and covers it, fitting it exactly in one
    direction. *)
Theorem aspect_fill_covers_frame (imgWidth imgHeight : Q) :
  (0 < imgWidth)%Q → (0 < imgHeight)%Q →
  ∃ r,
    AspectFill.place imgWidth imgHeight = Some r
    ∧ (AspectFill.renderW r * imgHeight == AspectFill.renderH r * imgWidth)%Q
    ∧ (AspectFill.width <= AspectFill.renderW r)%Q
    ∧ (AspectFill.height <= AspectFill.renderH r)%Q
    ∧ ((AspectFill.renderW r == AspectFill.width)%Q
       ∨ (AspectFill.renderH r == AspectFill.height)%Q)
    ∧ (AspectFill.offsetX r + AspectFill.renderW r / 2
       == AspectFill.width / 2)%Q
    ∧ (AspectFill.offsetY r + AspectFill.renderH r / 2
       == AspectFill.height / 2)%Q.
Proof.
  intros Hw Hh. unfold AspectFill.place, JS.div.
  assert (Eh : Qeq_bool imgHeight 0 = false).
  { destruct (Qeq_bool imgHeight 0) eqn:E; [| done].
    apply Qeq_bool_iff in E. lra. }
  rewrite Eh.
  assert (Hr : (0 < imgWidth / imgHeight)%Q) by (apply Qlt_shift_div_l; lra).
  assert (Hrh : (imgWidth / imgHeight * imgHeight == imgWidth)%Q)
    by (field; lra).
  revert Hr Hrh. generalize (imgWidth / imgHeight)%Q. intros ratio Hr Hrh.
  unfold AspectFill.width, AspectFill.height.
  destruct (JS.gt ratio (1920 / 1080)) eqn:G.
  - apply gt_true in G. eexists. split; [done |]. cbn.
    assert (Hc : (1920 / 1080 * 1080 == 1920)%Q) by reflexivity.
    assert (Hm : (1080 * ratio * imgHeight == 1080 * (ratio * imgHeight))%Q)
      by ring.
    split_and!; try lra; field.
  - assert (Hle : (ratio <= 1920 / 1080)%Q).
    { apply Qnot_lt_le. intros H. apply gt_true in H. congruence. }
    assert (Er : Qeq_bool ratio 0 = false).
    { destruct (Qeq_bool ratio 0) eqn:E; [| done].
      apply Qeq_bool_iff in E. lra. }
    rewrite Er. eexists. split; [done |]. cbn.
    assert (Hq : (1920 / ratio * ratio == 1920)%Q) by (field; lra).
    assert (Hge : (1080 <= 1920 / ratio)%Q).
    { apply Qle_shift_div_l; [done |].
      assert (H1 : (1080 * ratio <= 1080 * (1920 / 1080))%Q)
        by (apply Qmult_le_l; lra).
      assert (H2 : (1080 * (1920 / 1080) == 1920)%Q) by reflexivity.
      lra. }
    assert (Hm : (1920 / ratio * (ratio * imgHeight) == 1920 * imgHeight)%Q)
      by (field; lra).
    assert (Hm' : (1920 / ratio * (ratio * imgHeight)
                   == 1920 / ratio * imgWidth)%Q)
      by (apply Qmult_comp; [reflexivity | exact Hrh]).
    split_and!; try lra; field; lra.
Qed.

Lemma aspect_fill_covers_frame_witness :
  ∃ r,
    AspectFill.place 1024 1024 = Some r
    ∧ (AspectFill.width <= AspectFill.renderW r)%Q
    ∧ (AspectFill.height <= AspectFill.renderH r)%Q.
Proof.
  destruct (aspect_fill_covers_frame 1024 1024)
    as (r & Hr & _ & Hw & Hh & _); [lra | lra |].
  by exists r.
Defined.
